(** * horae-archi: keyword search and field filtering over scene records

    A shallow embedding of [app.py]: the tokenizer, the inverted index,
    keyword resolution (boolean AND over posting sets), the per-field
    filters and the paginator, followed by the properties of the engine.

    Conventions of the embedding.
    - A Python [str] is a [string]; each character stands for the code
      point of the same number, so the texts covered are those whose code
      points are below 256.  On that range [str.lower] and [str.strip]
      act character by character and are written out below.
    - A Python [dict] from tokens to [set]s of positions is a
      [gmap string (gset nat)].
    - [list(s)] of a [set] enumerates it in an order the language leaves
      open; the order is a parameter ([SetOrder]).
    - An uncaught exception ([IndexError], [ValueError]) is the result
      [None].
    - [int] on the page argument of a request is a parameter of
      [search_page]. *)

From Stdlib Require Import ZArith NArith Ascii String.
From stdpp Require Import gmap strings list sorting.

Set Warnings "-clear-no-such-hyp".

(** ** Python string primitives *)

Module Py.

Local Open Scope N_scope.

Definition ord (c : ascii) : N := N_of_ascii c.

Definition in_range (lo hi : N) (c : ascii) : bool :=
  (lo <=? ord c) && (ord c <=? hi).

(** Characters with a lowercase mapping among the code points below 256:
    A-Z, and U+00C0..U+00DE without the multiplication sign U+00D7. *)
Definition isupper (c : ascii) : bool :=
  in_range 65 90 c || (in_range 192 222 c && negb (ord c =? 215)).

Definition char_lower (c : ascii) : ascii :=
  if isupper c then ascii_of_N (ord c + 32) else c.

(** [s.lower()] *)
Fixpoint lower (s : string) : string :=
  match s with
  | EmptyString => EmptyString
  | String c s' => String (char_lower c) (lower s')
  end.

(** [c.isspace()] below 256: TAB..CR, FS..US, SPACE, NEL, NBSP. *)
Definition isspace (c : ascii) : bool :=
  in_range 9 13 c || in_range 28 32 c || (ord c =? 133) || (ord c =? 160).

Fixpoint lstrip (s : string) : string :=
  match s with
  | EmptyString => EmptyString
  | String c s' => if isspace c then lstrip s' else s
  end.

Fixpoint rstrip (s : string) : string :=
  match s with
  | EmptyString => EmptyString
  | String c s' =>
      match rstrip s' with
      | EmptyString => if isspace c then EmptyString else String c EmptyString
      | r => String c r
      end
  end.

(** [s.strip()] *)
Definition strip (s : string) : string := rstrip (lstrip s).

(** Truth value of a [str]: [not s] holds for the empty string only. *)
Definition truthy (s : string) : bool :=
  match s with EmptyString => false | String _ _ => true end.

Fixpoint startswith (p s : string) : bool :=
  match p, s with
  | EmptyString, _ => true
  | String _ _, EmptyString => false
  | String a p', String b s' => if decide (a = b) then startswith p' s' else false
  end.

(** [sub in s] for two [str]s: [sub] occurs in [s] as a contiguous block. *)
Fixpoint contains (sub s : string) : bool :=
  startswith sub s ||
  match s with
  | EmptyString => false
  | String _ s' => contains sub s'
  end.

(** [s.endswith(suf)] *)
Fixpoint endswith (suf s : string) : bool :=
  if decide (suf = s) then true
  else match s with
       | EmptyString => false
       | String _ s' => endswith suf s'
       end.

(** [sep.join(l)] *)
Definition join (sep : string) (l : list string) : string := String.concat sep l.

(** [any(...)] over a list of already computed truth values. *)
Definition any (l : list bool) : bool := existsb id l.

End Py.

(** ** Tokenizer *)

(** The character class [[a-zA-Z0-9_]]. *)
Definition word_class (c : ascii) : bool :=
  Py.in_range 97 122 c || Py.in_range 65 90 c || Py.in_range 48 57 c
  || (Py.ord c =? 95)%N.

(** The match under construction is kept reversed in [run]; [emit] closes
    it.  An empty run is no match: [+] needs one character at least. *)
Definition emit (run : list ascii) (rest : list string) : list string :=
  match run with
  | [] => rest
  | _ :: _ => string_of_list_ascii (rev run) :: rest
  end.

(** [re.findall(r"[a-zA-Z0-9_]+", s)]: scan from the left, extend the
    current match greedily while the class matches, report it at the first
    character outside the class (or at the end) and resume after it. *)
Fixpoint findall_word (run : list ascii) (s : string) : list string :=
  match s with
  | EmptyString => emit run []
  | String c s' =>
      if word_class c then findall_word (c :: run) s'
      else emit run (findall_word [] s')
  end.

Definition tokenize (text : string) : list string :=
  findall_word [] (Py.lower text).


(** ** Record store *)

(** The fields of one JSON file that the engine reads; [None] is an
    absent key.  Text fields hold strings and list fields lists of
    strings, as the corpus has them. *)
Record Doc := {
  scene_description_enriched : option string;
  scene_interpretation : option string;
  spatial_context : option string;
  architectural_context : option string;
  building_types : option (list string);
  architectural_elements : option (list string);
  persons : option (list string)
}.

(** A loaded record: the JSON fields and the two keys added at load. *)
Record Rec := {
  doc : Doc;
  _filename : string;
  _search_text : string
}.

(** [record.get(key, dflt)] *)
Definition get {A} (field : Doc -> option A) (dflt : A) (record : Rec) : A :=
  default dflt (field (doc record)).

Definition search_text_of (d : Doc) : string :=
  Py.lower (Py.join " " [
    default "" (scene_description_enriched d);
    default "" (scene_interpretation d);
    default "" (spatial_context d);
    default "" (architectural_context d);
    Py.join " " (default [] (building_types d));
    Py.join " " (default [] (architectural_elements d));
    Py.join " " (default [] (persons d))
  ]).

(** The body of the loop of [load_dataset] for one directory entry. *)
Definition load_file (data : list Rec) (entry : string * Doc) : list Rec :=
  let '(filename, d) := entry in
  if Py.endswith ".json" filename
  then data ++ [ {| doc := d; _filename := filename;
                    _search_text := search_text_of d |} ]
  else data.

(** [load_dataset]: the directory is the listing [os.listdir] returns,
    each name with the JSON object read from it. *)
Definition load_dataset (json_dir : list (string * Doc)) : list Rec :=
  foldl load_file [] json_dir.

(** ** Inverted index *)

(** [enumerate(data)] *)
Definition enumerate {A} (data : list A) : list (nat * A) := imap pair data.

(** [INDEX.get(t, set())] *)
Definition postings (INDEX : gmap string (gset nat)) (t : string) : gset nat :=
  default ∅ (INDEX !! t).

(** [index.setdefault(token, set()).add(i)] *)
Definition add_posting (i : nat) (index : gmap string (gset nat)) (token : string)
  : gmap string (gset nat) :=
  <[token := postings index token ∪ {[i]}]> index.

Definition build_inverted_index (data : list Rec) : gmap string (gset nat) :=
  foldl (fun index '(i, record) =>
           foldl (add_posting i) index (tokenize (_search_text record)))
        ∅ (enumerate data).

(** ** Keyword resolution *)

(** The order in which [list(results)] walks a set.  Python fixes only
    that every member comes out once; the order follows the slots of the
    hash table and need not be ascending (CPython lists the set holding 1
    and 8 as 8, 1: with eight slots 8 falls into slot 0 and 1 into
    slot 1). *)
Record SetOrder := {
  to_list : gset nat -> list nat;
  to_list_perm : forall s, to_list s ≡ₚ elements s
}.

Definition ascending : SetOrder :=
  {| to_list := fun s => merge_sort Nat.le (elements s);
     to_list_perm := fun s => merge_sort_Permutation Nat.le (elements s) |}.

Definition descending : SetOrder :=
  {| to_list := fun s => reverse (merge_sort Nat.le (elements s));
     to_list_perm := fun s =>
       Permutation_trans (reverse_Permutation _)
                         (merge_sort_Permutation Nat.le (elements s)) |}.

(** The loop [for t in tokens[1:]: results &= INDEX.get(t, set())]. *)
Definition intersect_all (INDEX : gmap string (gset nat)) (results : gset nat)
    (tokens : list string) : gset nat :=
  foldl (fun results t => results ∩ postings INDEX t) results tokens.

(** [search_keyword]; the globals [DATA] and [INDEX] are arguments.
    [tokens[0]] raises [IndexError] on an empty list.  The first posting
    set is copied before [&=] updates it, so the index is left as it is
    and sets are plain values here. *)
Definition search_keyword (O : SetOrder) (DATA : list Rec)
    (INDEX : gmap string (gset nat)) (query : string) : option (list nat) :=
  if negb (Py.truthy (Py.strip query)) then Some (seq 0 (length DATA))
  else
    let tokens := tokenize query in
    match tokens !! 0%nat with
    | None => None
    | Some first =>
        let results := postings INDEX first in
        let results := intersect_all INDEX results (drop 1 tokens) in
        Some (to_list O results)
    end.

(** ** Field filters *)

(** [not value] for a filter argument: [None] and the empty string. *)
Definition inactive (value : option string) : bool :=
  match value with
  | None => true
  | Some v => negb (Py.truthy v)
  end.

(** The argument once [inactive] has been ruled out. *)
Definition text_of (value : option string) : string := default "" value.

(** [str(field_value)] is [field_value] itself: the fields are strings. *)
Definition filter_exact (value : option string) (field_value : string) : bool :=
  if inactive value then true
  else bool_decide (Py.lower (text_of value) = Py.lower field_value).

Definition filter_contains (text : option string) (field_value : string) : bool :=
  if inactive text then true
  else Py.contains (Py.lower (text_of text)) (Py.lower field_value).

Definition filter_list (text : option string) (values_list : list string) : bool :=
  if inactive text then true
  else
    let text := Py.lower (text_of text) in
    Py.any (map (fun v => Py.contains text (Py.lower v)) values_list).

(** Defined in the source but called from nowhere. *)
Definition filter_list_field (text : option string) (values_list : list string) : bool :=
  if inactive text then true
  else
    let joined := Py.lower (Py.join " " values_list) in
    Py.contains (Py.lower (text_of text)) joined.

(** The keyword arguments of [filter_results]. *)
Record Filters := {
  f_scene_desc : option string;
  f_scene_interp : option string;
  f_spatial : option string;
  f_arch : option string;
  f_buildings : option string;
  f_elements : option string;
  f_persons : option string
}.

Definition no_filters : Filters :=
  {| f_scene_desc := None; f_scene_interp := None; f_spatial := None;
     f_arch := None; f_buildings := None; f_elements := None;
     f_persons := None |}.

(** The body of the loop of [filter_results] up to [final.append(rec)]:
    [false] where a [continue] is taken. *)
Definition passes (F : Filters) (rec : Rec) : bool :=
  if negb (filter_contains (f_scene_desc F) (get scene_description_enriched "" rec)) then false
  else if negb (filter_contains (f_scene_interp F) (get scene_interpretation "" rec)) then false
  else if negb (filter_exact (f_spatial F) (get spatial_context "" rec)) then false
  else if negb (filter_exact (f_arch F) (get architectural_context "" rec)) then false
  else if negb (filter_list (f_buildings F) (get building_types [] rec)) then false
  else if negb (filter_list (f_elements F) (get architectural_elements [] rec)) then false
  else if negb (filter_list (f_persons F) (get persons [] rec)) then false
  else true.

(** The loop of [filter_results] with [final] as its state; [DATA[idx]]
    raises [IndexError] past the end. *)
Fixpoint filter_loop (DATA : list Rec) (F : Filters) (indices : list nat)
    (final : list Rec) : option (list Rec) :=
  match indices with
  | [] => Some final
  | idx :: indices' =>
      match DATA !! idx with
      | None => None
      | Some rec =>
          if passes F rec then filter_loop DATA F indices' (final ++ [rec])
          else filter_loop DATA F indices' final
      end
  end.

Definition filter_results (DATA : list Rec) (indices : list nat) (F : Filters)
  : option (list Rec) :=
  filter_loop DATA F indices [].

(** ** Paginator *)

Definition RESULTS_PER_PAGE : Z := 48.

(** [l[start:stop]] with Python's treatment of negative and oversized
    bounds. *)
Definition slice {A} (l : list A) (start stop : Z) : list A :=
  let n := Z.of_nat (length l) in
  let clamp i := if (i <? 0)%Z then Z.max 0 (i + n) else Z.min i n in
  let a := clamp start in
  let b := clamp stop in
  take (Z.to_nat (b - a)) (drop (Z.to_nat a) l).

(** What [search_page] hands to the template. *)
Record Page := {
  results_page : list Rec;
  total_pages : Z;
  total_results : Z
}.

(** The pagination lines of [search_page]. *)
Definition paginate (results_all : list Rec) (page : Z) : Page :=
  let total_results := Z.of_nat (length results_all) in
  let total_pages :=
    Z.max 1 ((total_results + RESULTS_PER_PAGE - 1) / RESULTS_PER_PAGE) in
  let start := ((page - 1) * RESULTS_PER_PAGE)%Z in
  let end_ := (start + RESULTS_PER_PAGE)%Z in
  {| results_page := slice results_all start end_;
     total_pages := total_pages;
     total_results := total_results |}.

(** [int(request.args.get("page", 1))]: without a page argument the
    default 1 is taken; otherwise the argument is a string handed to
    [int], which raises [ValueError] on a string it cannot read.  What
    [int] reads is the parameter [int_]. *)
Definition page_number (int_ : string -> option Z) (page_arg : option string)
  : option Z :=
  match page_arg with
  | None => Some 1%Z
  | Some s => int_ s
  end.

(** The GET branch of [search_page]: read the page number, resolve,
    filter, paginate. *)
Definition search_page (int_ : string -> option Z) (O : SetOrder)
    (DATA : list Rec) (INDEX : gmap string (gset nat)) (query : string)
    (F : Filters) (page_arg : option string) : option Page :=
  match page_number int_ page_arg with
  | None => None
  | Some page =>
      match search_keyword O DATA INDEX query with
      | None => None
      | Some indices =>
          match filter_results DATA indices F with
          | None => None
          | Some results_all => Some (paginate results_all page)
          end
      end
  end.

(** ** Vocabulary of the specification *)

(** Every character of [s] satisfies [P]. *)
Fixpoint all_chars (P : ascii -> bool) (s : string) : bool :=
  match s with
  | EmptyString => true
  | String c s' => P c && all_chars P s'
  end.

Definition separator (c : ascii) : bool := negb (word_class c).

(** A query that is empty or made of whitespace only. *)
Definition blank (s : string) : Prop := all_chars Py.isspace s = true.

(** [sub] occurs in [s] as a contiguous block. *)
Definition substring (sub s : string) : Prop :=
  exists pre post, s = pre +:+ sub +:+ post.

(** Containment up to case. *)
Definition ci_substring (sub s : string) : Prop :=
  substring (Py.lower sub) (Py.lower s).

(** [s] is empty or begins with a separator: a run ending just before
    [s] cannot be extended. *)
Definition run_stops (s : string) : Prop :=
  match s with
  | EmptyString => True
  | String c _ => separator c = true
  end.

(** [maximal_runs s toks]: [toks] are the maximal runs of class
    characters of [s], in order of occurrence, and every other character
    of [s] is a separator. *)
Inductive maximal_runs : string -> list string -> Prop :=
  | runs_done sep :
      all_chars separator sep = true ->
      maximal_runs sep []
  | runs_token sep tok rest toks :
      all_chars separator sep = true ->
      tok <> "" ->
      all_chars word_class tok = true ->
      run_stops rest ->
      maximal_runs rest toks ->
      maximal_runs (sep +:+ tok +:+ rest) (tok :: toks).

(** Ceiling of a quotient by a positive divisor, by its defining bounds. *)
Definition is_ceil_div (a b c : Z) : Prop := (b * (c - 1) < a <= b * c)%Z.

(** [recs] are the records of [DATA] at strictly increasing positions. *)
Definition in_load_order (DATA recs : list Rec) : Prop :=
  exists ps : list nat,
    StronglySorted lt ps /\ Forall2 (fun p r => DATA !! p = Some r) ps recs.

(** One active filter, the six others left out. *)
Definition only_buildings (v : string) : Filters :=
  {| f_scene_desc := None; f_scene_interp := None; f_spatial := None;
     f_arch := None; f_buildings := Some v; f_elements := None;
     f_persons := None |}.

Definition only_persons (v : string) : Filters :=
  {| f_scene_desc := None; f_scene_interp := None; f_spatial := None;
     f_arch := None; f_buildings := None; f_elements := None;
     f_persons := Some v |}.

(** None of the seven filters is set: each is absent or the empty
    string. *)
Definition all_inactive (F : Filters) : Prop :=
  inactive (f_scene_desc F) = true /\ inactive (f_scene_interp F) = true
  /\ inactive (f_spatial F) = true /\ inactive (f_arch F) = true
  /\ inactive (f_buildings F) = true /\ inactive (f_elements F) = true
  /\ inactive (f_persons F) = true.

(** What a request passes when no filter is filled in: the empty string
    for each. *)
Definition empty_filters : Filters :=
  {| f_scene_desc := Some ""; f_scene_interp := Some ""; f_spatial := Some "";
     f_arch := Some ""; f_buildings := Some ""; f_elements := Some "";
     f_persons := Some "" |}.

(** The filters [F] with one of them replaced. *)
Definition set_scene_desc (o : option string) (F : Filters) : Filters :=
  {| f_scene_desc := o; f_scene_interp := f_scene_interp F;
     f_spatial := f_spatial F; f_arch := f_arch F;
     f_buildings := f_buildings F; f_elements := f_elements F;
     f_persons := f_persons F |}.

Definition set_spatial (o : option string) (F : Filters) : Filters :=
  {| f_scene_desc := f_scene_desc F; f_scene_interp := f_scene_interp F;
     f_spatial := o; f_arch := f_arch F;
     f_buildings := f_buildings F; f_elements := f_elements F;
     f_persons := f_persons F |}.

Definition set_buildings (o : option string) (F : Filters) : Filters :=
  {| f_scene_desc := f_scene_desc F; f_scene_interp := f_scene_interp F;
     f_spatial := f_spatial F; f_arch := f_arch F;
     f_buildings := o; f_elements := f_elements F;
     f_persons := f_persons F |}.

Definition set_elements (o : option string) (F : Filters) : Filters :=
  {| f_scene_desc := f_scene_desc F; f_scene_interp := f_scene_interp F;
     f_spatial := f_spatial F; f_arch := f_arch F;
     f_buildings := f_buildings F; f_elements := o;
     f_persons := f_persons F |}.

Definition set_persons (o : option string) (F : Filters) : Filters :=
  {| f_scene_desc := f_scene_desc F; f_scene_interp := f_scene_interp F;
     f_spatial := f_spatial F; f_arch := f_arch F;
     f_buildings := f_buildings F; f_elements := f_elements F;
     f_persons := o |}.

(** Whether the loop of [filter_results] appends the record at [p]. *)
Definition kept_at (DATA : list Rec) (F : Filters) (p : nat) : bool :=
  match DATA !! p with
  | Some rec => passes F rec
  | None => false
  end.

(** The engine keeps record [rec], offered alone at position [idx]. *)
Definition keeps (DATA : list Rec) (F : Filters) (idx : nat) (rec : Rec) : Prop :=
  filter_results DATA [idx] F = Some [rec].

(** ** A small corpus *)

(** A file with a scene description and nothing else. *)
Definition plain_doc (description : string) : Doc :=
  {| scene_description_enriched := Some description;
     scene_interpretation := None;
     spatial_context := None;
     architectural_context := None;
     building_types := None;
     architectural_elements := None;
     persons := None |}.

Definition ruins_doc : Doc :=
  {| scene_description_enriched := Some "Urban decay around a brick facade";
     scene_interpretation := None;
     spatial_context := Some "suburban area";
     architectural_context := Some "Gothic";
     building_types := Some ["brick tower"; "ruins"];
     architectural_elements := Some ["arch"];
     persons := None |}.

Definition glass_doc : Doc :=
  {| scene_description_enriched := Some "Glass facade";
     scene_interpretation := Some "A tower, a tower!";
     spatial_context := Some "Urban";
     architectural_context := None;
     building_types := Some ["tower"];
     architectural_elements := None;
     persons := Some ["king"; "monk"] |}.

(** Nine records and a file that is not JSON; the token "tower" occurs
    in the records at positions 1 and 8. *)
Definition sample_dir : list (string * Doc) :=
  [ ("m001.json", plain_doc "Courtyard");
    ("m002.json", ruins_doc);
    ("notes.txt", plain_doc "tower");
    ("m003.json", plain_doc "Garden");
    ("m004.json", plain_doc "Bridge");
    ("m005.json", plain_doc "Market");
    ("m006.json", plain_doc "Harbour");
    ("m007.json", plain_doc "Chapel");
    ("m008.json", plain_doc "Gate");
    ("m009.json", glass_doc) ].

Definition sample_data : list Rec := load_dataset sample_dir.

Definition sample_index : gmap string (gset nat) :=
  build_inverted_index sample_data.

(** The records at positions 1 and 8. *)
Definition sample_ruins : Rec :=
  {| doc := ruins_doc; _filename := "m002.json";
     _search_text := search_text_of ruins_doc |}.

Definition sample_glass : Rec :=
  {| doc := glass_doc; _filename := "m009.json";
     _search_text := search_text_of glass_doc |}.

(** ** The remaining helper of the source *)

(** [filter_field]; like [filter_list_field] it is called from nowhere.
    [not field_value] holds for an absent value and for the empty
    string. *)
Definition filter_field (text : option string) (field_value : option string)
  : bool :=
  if inactive text then true
  else if inactive field_value then false
  else Py.contains (Py.lower (text_of text)) (Py.lower (text_of field_value)).

(** ** Further vocabulary *)

(** The record [load_dataset] makes of one directory entry. *)
Definition record_of (entry : string * Doc) : Rec :=
  {| doc := entry.2; _filename := entry.1;
     _search_text := search_text_of entry.2 |}.

Definition is_json (entry : string * Doc) : bool :=
  Py.endswith ".json" entry.1.

(** [a-z], [0-9] and the underscore. *)
Definition lowercase_word (c : ascii) : bool :=
  Py.in_range 97 122 c || Py.in_range 48 57 c || (Py.ord c =? 95)%N.

(** Every token of the query is a token of the record's search text. *)
Definition has_all_tokens (query : string) (rec : Rec) : Prop :=
  forall t, t ∈ tokenize query -> t ∈ tokenize (_search_text rec).

(** No key of the index holds an empty set. *)
Definition no_empty_posting (index : gmap string (gset nat)) : Prop :=
  forall t s, index !! t = Some s -> s <> ∅.

(** The pages 1, 2, ..., [n] of a result list, one after the other. *)
Definition pages_upto (results_all : list Rec) (n : nat) : list (list Rec) :=
  map (fun k => results_page (paginate results_all (Z.of_nat k))) (seq 1 n).

(** * Properties *)

(** ** Strings *)

Section Strings.
Implicit Types (s t u : string) (c : ascii).

Lemma app_cons c s t : String c s +:+ t = String c (s +:+ t).
Proof. reflexivity. Qed.

Lemma app_empty_l s : "" +:+ s = s.
Proof. reflexivity. Qed.

Lemma app_empty_r s : s +:+ "" = s.
Proof. induction s as [|c s IH]; [done|]. by rewrite app_cons, IH. Qed.

Lemma lower_app s t : Py.lower (s +:+ t) = Py.lower s +:+ Py.lower t.
Proof.
  induction s as [|c s IH]; [done|].
  rewrite app_cons. simpl. by rewrite IH.
Qed.

Lemma startswith_spec p s :
  Py.startswith p s = true <-> exists post, s = p +:+ post.
Proof.
  revert s. induction p as [|a p IH]; intros s; simpl.
  - split; [intros _; by exists s | done].
  - destruct s as [|b s].
    + split; [done | intros [post H]; discriminate H].
    + destruct (decide (a = b)) as [->|Hne].
      * rewrite IH. split; intros [post H]; exists post.
        -- by rewrite app_cons, H.
        -- rewrite app_cons in H. by injection H.
      * split; [done | intros [post H]].
        rewrite app_cons in H. injection H as ? _. by destruct Hne.
Qed.

(** The [in] test finds exactly the contiguous occurrences. *)
Lemma contains_spec sub s :
  Py.contains sub s = true <-> substring sub s.
Proof.
  unfold substring. induction s as [|c s IH]; simpl.
  - rewrite orb_false_r, startswith_spec. split.
    + intros [post H]. by exists "", post.
    + intros (pre & post & H). destruct pre as [|? ?]; [|discriminate H].
      by exists post.
  - rewrite orb_true_iff, startswith_spec, IH. split.
    + intros [[post H]|(pre & post & H)].
      * by exists "", post.
      * exists (String c pre), post. by rewrite app_cons, H.
    + intros (pre & post & H). destruct pre as [|a pre].
      * left. by exists post.
      * right. rewrite app_cons in H. injection H as _ H.
        by exists pre, post.
Qed.

Lemma lstrip_blank s : all_chars Py.isspace s = true -> Py.lstrip s = "".
Proof.
  induction s as [|c s IH]; simpl; [done|].
  intros [Hc Hs]%andb_true_iff. rewrite Hc. auto.
Qed.

Lemma lstrip_not_blank s :
  all_chars Py.isspace s = false ->
  exists c t, Py.lstrip s = String c t /\ Py.isspace c = false.
Proof.
  induction s as [|c s IH]; simpl; [done|].
  destruct (Py.isspace c) eqn:Hc; simpl; [auto|].
  intros _. by exists c, s.
Qed.

Lemma rstrip_keeps_head c s :
  Py.isspace c = false -> exists t, Py.rstrip (String c s) = String c t.
Proof.
  intros Hc. simpl. destruct (Py.rstrip s); rewrite ?Hc; eauto.
Qed.

(** [not query.strip()] singles out the blank strings. *)
Lemma strip_truthy s : Py.truthy (Py.strip s) = negb (all_chars Py.isspace s).
Proof.
  unfold Py.strip. destruct (all_chars Py.isspace s) eqn:Hs.
  - by rewrite lstrip_blank.
  - destruct (lstrip_not_blank s Hs) as (c & t & -> & Hc).
    by destruct (rstrip_keeps_head c t Hc) as [u ->].
Qed.

Lemma strip_blank s : Py.strip s = "" <-> blank s.
Proof.
  unfold blank. pose proof (strip_truthy s) as H.
  destruct (Py.strip s), (all_chars Py.isspace s); naive_solver.
Qed.

(** Whitespace stays outside the token class, also after lowercasing. *)
Lemma space_lower_separator c :
  Py.isspace c = true -> separator (Py.char_lower c) = true.
Proof. destruct c as [[] [] [] [] [] [] [] []]; vm_compute; congruence. Qed.

Lemma blank_lower_separators s :
  all_chars Py.isspace s = true -> all_chars separator (Py.lower s) = true.
Proof.
  induction s as [|c s IH]; simpl; [done|].
  intros [Hc Hs]%andb_true_iff. by rewrite space_lower_separator, IH.
Qed.

Lemma string_of_list_of s : string_of_list_ascii (list_ascii_of_string s) = s.
Proof. apply string_of_list_ascii_of_string. Qed.
End Strings.

(** ** Tokenizer *)

Section Tokenizer.
Implicit Types (s t sep tok rest : string) (run : list ascii) (c : ascii).

Lemma emit_app run l k : emit run l ++ k = emit run (l ++ k).
Proof. by destruct run. Qed.

(** Leading separators produce nothing. *)
Lemma findall_skip sep s :
  all_chars separator sep = true ->
  findall_word [] (sep +:+ s) = findall_word [] s.
Proof.
  unfold separator. induction sep as [|c sep IH]; [done|].
  rewrite app_cons. simpl. intros [Hc Hs]%andb_true_iff.
  apply negb_true_iff in Hc. rewrite Hc. simpl. auto.
Qed.

Lemma findall_separators sep :
  all_chars separator sep = true -> findall_word [] sep = [].
Proof.
  intros H. rewrite <- (app_empty_r sep). by rewrite findall_skip.
Qed.

(** A run of class characters that cannot be extended is swallowed whole
    into the current match. *)
Lemma findall_run tok rest run :
  all_chars word_class tok = true ->
  run_stops rest ->
  findall_word run (tok +:+ rest)
  = emit (rev (list_ascii_of_string tok) ++ run) (findall_word [] rest).
Proof.
  revert run. induction tok as [|c tok IH]; intros run Htok Hrest.
  - rewrite app_empty_l. simpl. destruct rest as [|d rest]; [done|].
    simpl in *. unfold separator in Hrest.
    apply negb_true_iff in Hrest. by rewrite Hrest.
  - simpl in Htok. apply andb_true_iff in Htok as [Hc Htok].
    rewrite app_cons. simpl. rewrite Hc, IH by done.
    by rewrite <- app_assoc.
Qed.

(** The scanner reports what the specification calls the maximal runs. *)
Lemma runs_findall s toks : maximal_runs s toks -> findall_word [] s = toks.
Proof.
  induction 1 as [sep Hsep|sep tok rest toks Hsep Hne Htok Hrest _ IH].
  - by apply findall_separators.
  - rewrite findall_skip, findall_run by done.
    rewrite app_nil_r, IH. unfold emit.
    assert (string_of_list_ascii (rev (rev (list_ascii_of_string tok))) = tok)
      as Hback by (by rewrite rev_involutive, string_of_list_of).
    destruct (rev (list_ascii_of_string tok)); [by destruct Hne|].
    by rewrite Hback.
Qed.

Lemma runs_cons_separator c s toks :
  separator c = true -> maximal_runs s toks -> maximal_runs (String c s) toks.
Proof.
  intros Hc [sep Hsep|sep tok rest toks' Hsep Hne Htok Hrest Hruns].
  - constructor. simpl. by rewrite Hc.
  - rewrite <- app_cons. constructor; try done. simpl. by rewrite Hc.
Qed.

Lemma separators_run_stops s : all_chars separator s = true -> run_stops s.
Proof. destruct s; simpl; [done|]. by intros [? _]%andb_true_iff. Qed.

Lemma runs_cons_word c s toks :
  word_class c = true -> maximal_runs s toks ->
  exists toks', maximal_runs (String c s) toks'.
Proof.
  intros Hc [sep Hsep|sep tok rest toks' Hsep Hne Htok Hrest Hruns].
  - exists [String c ""].
    apply (runs_token "" (String c "") sep []); try done.
    + simpl. by rewrite Hc.
    + by apply separators_run_stops.
    + by constructor.
  - destruct sep as [|d sep].
    + exists (String c tok :: toks').
      apply (runs_token "" (String c tok) rest toks'); try done.
      simpl. by rewrite Hc.
    + exists (String c "" :: tok :: toks').
      apply (runs_token "" (String c "") (String d sep +:+ tok +:+ rest));
        try done.
      * simpl. by rewrite Hc.
      * simpl in *. by apply andb_true_iff in Hsep as [? _].
      * by constructor.
Qed.

(** Every string splits into separators and maximal runs. *)
Lemma runs_exist s : exists toks, maximal_runs s toks.
Proof.
  induction s as [|c s [toks IH]].
  - exists []. by constructor.
  - destruct (word_class c) eqn:Hc.
    + by eapply runs_cons_word.
    + exists toks. apply runs_cons_separator; [|done].
      unfold separator. by rewrite Hc.
Qed.

Lemma findall_runs s : maximal_runs s (findall_word [] s).
Proof.
  destruct (runs_exist s) as [toks H].
  by rewrite (runs_findall s toks H).
Qed.

(** Scanning distributes over a separator between two texts. *)
Lemma findall_split run s c t :
  separator c = true ->
  findall_word run (s +:+ String c t)
  = findall_word run s ++ findall_word [] t.
Proof.
  unfold separator. intros Hc%negb_true_iff. revert run.
  induction s as [|d s IH]; intros run.
  - rewrite app_empty_l. simpl. by rewrite Hc, emit_app.
  - rewrite app_cons. simpl. destruct (word_class d); [done|].
    by rewrite IH, emit_app.
Qed.

Lemma tokenize_space a b :
  tokenize (a +:+ " " +:+ b) = tokenize a ++ tokenize b.
Proof.
  unfold tokenize. rewrite !lower_app. by apply findall_split.
Qed.

Lemma tokenize_blank s : blank s -> tokenize s = [].
Proof.
  intros H. apply findall_separators. by apply blank_lower_separators.
Qed.

(** Tokens are made of lowercase letters, digits and underscore only. *)
Lemma runs_tokens_word s toks :
  maximal_runs s toks ->
  Forall (fun tok => tok <> "" /\ all_chars word_class tok = true) toks.
Proof. induction 1; by constructor. Qed.
End Tokenizer.

(** C9. [tokenize] lowercases its input and returns, in order of
    occurrence, exactly the maximal runs of ASCII letters, digits and
    underscore of the lowercased text, every other character being a
    separator; the empty string gives no token and
    [tokenize "Foo_Bar 123!"] is ["foo_bar"; "123"]. *)
Theorem tokenize_maximal_runs :
  (forall text toks,
     tokenize text = toks <-> maximal_runs (Py.lower text) toks)
  /\ tokenize "" = []
  /\ tokenize "Foo_Bar 123!" = ["foo_bar"; "123"].
Proof.
  split; [|done]. intros text toks. unfold tokenize. split.
  - intros <-. apply findall_runs.
  - apply runs_findall.
Qed.

(** ** Inverted index *)

Section Index.
Implicit Types (index INDEX : gmap string (gset nat)) (data : list Rec).
Implicit Types (t tok : string) (p i : nat).

Lemma postings_add i index tok t :
  postings (add_posting i index tok) t
  = if decide (tok = t) then postings index t ∪ {[i]} else postings index t.
Proof.
  unfold add_posting, postings at 1. case_decide as Heq.
  - subst. by rewrite lookup_insert_eq.
  - by rewrite lookup_insert_ne.
Qed.

(** The inner loop adds [i] under the tokens of the record, nothing else. *)
Lemma elem_of_postings_fold i toks index t p :
  p ∈ postings (foldl (add_posting i) index toks) t
  <-> p ∈ postings index t \/ (p = i /\ t ∈ toks).
Proof.
  revert index. induction toks as [|tok toks IH]; intros index; simpl.
  - rewrite elem_of_nil. tauto.
  - rewrite IH, postings_add, elem_of_cons. case_decide; set_solver.
Qed.

Lemma enumerate_snoc {A} (l : list A) x :
  enumerate (l ++ [x]) = enumerate l ++ [(length l, x)].
Proof.
  unfold enumerate. rewrite imap_app. simpl. by rewrite Nat.add_0_r.
Qed.

Lemma build_snoc data record :
  build_inverted_index (data ++ [record])
  = foldl (add_posting (length data)) (build_inverted_index data)
          (tokenize (_search_text record)).
Proof.
  unfold build_inverted_index. by rewrite enumerate_snoc, foldl_snoc.
Qed.

Lemma elem_of_index data t p :
  p ∈ postings (build_inverted_index data) t
  <-> exists record,
        data !! p = Some record /\ t ∈ tokenize (_search_text record).
Proof.
  induction data as [|record data IH] using rev_ind.
  - unfold build_inverted_index, postings. simpl.
    rewrite lookup_empty. simpl. split; [set_solver|].
    intros (r & Hr & _). by rewrite lookup_nil in Hr.
  - rewrite build_snoc, elem_of_postings_fold, IH. split.
    + intros [(r & Hr & Ht)|[-> Ht]].
      * exists r. split; [|done]. by apply lookup_app_l_Some.
      * exists record. split; [|done]. by rewrite list_lookup_middle.
    + intros (r & Hr & Ht).
      destruct (decide (p = length data)) as [->|Hne].
      * right. rewrite list_lookup_middle in Hr by done. by simplify_eq.
      * left. exists r. split; [|done].
        apply lookup_lt_Some in Hr as Hlt. rewrite length_app in Hlt.
        simpl in Hlt. rewrite lookup_app_l in Hr by lia. done.
Qed.

(** Loading keeps the JSON files in listing order and derives the search
    text of each from its fields. *)
Lemma load_dataset_search_text json_dir :
  Forall (fun record => _search_text record = search_text_of (doc record))
         (load_dataset json_dir).
Proof.
  unfold load_dataset.
  assert (forall data,
            Forall (fun record =>
                      _search_text record = search_text_of (doc record)) data ->
            Forall (fun record =>
                      _search_text record = search_text_of (doc record))
                   (foldl load_file data json_dir)) as Hfold.
  { induction json_dir as [|[filename d] json_dir IH]; intros data Hdata;
      simpl; [done|].
    apply IH. destruct (Py.endswith ".json" filename); [|done].
    apply Forall_app. split; [done|]. by constructor. }
  by apply Hfold.
Qed.

Lemma index_in_range data t p :
  p ∈ postings (build_inverted_index data) t -> p < length data.
Proof. intros (r & Hr & _)%elem_of_index. by eapply lookup_lt_Some. Qed.

Lemma elem_of_to_list (O : SetOrder) (s : gset nat) p :
  p ∈ to_list O s <-> p ∈ s.
Proof. by rewrite (to_list_perm O s), elem_of_elements. Qed.

Lemma NoDup_to_list (O : SetOrder) (s : gset nat) : NoDup (to_list O s).
Proof. rewrite (to_list_perm O s). apply NoDup_elements. Qed.

Lemma list_to_set_to_list (O : SetOrder) (s : gset nat) :
  list_to_set (to_list O s) = s.
Proof.
  apply set_eq. intros p. by rewrite elem_of_list_to_set, elem_of_to_list.
Qed.

Lemma to_list_empty (O : SetOrder) : to_list O ∅ = [].
Proof.
  apply Permutation_nil_r. by rewrite (to_list_perm O ∅), elements_empty.
Qed.
End Index.

(** C1. In the index built from the records, position [p] is in the
    posting set of token [t] exactly when record [p] exists and [t] is one
    of the tokens of its search text; listing a posting set never repeats
    a position, however often the token occurs in the record. *)
Theorem index_postings_exact (data : list Rec) (t : string) (p : nat) :
  (p ∈ postings (build_inverted_index data) t
   <-> exists record,
         data !! p = Some record /\ t ∈ tokenize (_search_text record))
  /\ (forall O : SetOrder,
        NoDup (to_list O (postings (build_inverted_index data) t))).
Proof.
  split; [apply elem_of_index | intros O; apply NoDup_to_list].
Qed.

(** ** Keyword resolution *)

Section Resolver.
Context (O : SetOrder) (DATA : list Rec) (INDEX : gmap string (gset nat)).
Implicit Types (query a b t : string).

Lemma search_blank query :
  blank query -> search_keyword O DATA INDEX query = Some (seq 0 (length DATA)).
Proof.
  unfold blank, search_keyword. intros H. by rewrite strip_truthy, H.
Qed.

Lemma not_blank_strip query :
  ~ blank query -> negb (Py.truthy (Py.strip query)) = false.
Proof.
  unfold blank. rewrite strip_truthy. by destruct (all_chars _ _).
Qed.

Lemma search_no_token query :
  ~ blank query -> tokenize query = [] ->
  search_keyword O DATA INDEX query = None.
Proof.
  intros Hb Ht. unfold search_keyword. by rewrite not_blank_strip, Ht.
Qed.

Lemma search_tokens query first rest :
  tokenize query = first :: rest ->
  search_keyword O DATA INDEX query
  = Some (to_list O (intersect_all INDEX (postings INDEX first) rest)).
Proof.
  intros Ht. unfold search_keyword. rewrite not_blank_strip, Ht; [done|].
  intros Hb%tokenize_blank. by rewrite Hb in Ht.
Qed.

Lemma intersect_all_subseteq results tokens :
  intersect_all INDEX results tokens ⊆ results.
Proof.
  revert results. induction tokens as [|t tokens IH]; intros results; simpl.
  - done.
  - etrans; [apply IH|]. set_solver.
Qed.

(** The three ways [search_keyword] can end. *)
Lemma search_cases query :
  (blank query
   /\ search_keyword O DATA INDEX query = Some (seq 0 (length DATA)))
  \/ (~ blank query /\ tokenize query = []
      /\ search_keyword O DATA INDEX query = None)
  \/ (exists first rest,
        tokenize query = first :: rest
        /\ search_keyword O DATA INDEX query
           = Some (to_list O (intersect_all INDEX (postings INDEX first) rest))).
Proof.
  destruct (all_chars Py.isspace query) eqn:Hb.
  - left. split; [done|]. by apply search_blank.
  - right. assert (~ blank query) as Hnb by (unfold blank; by rewrite Hb).
    destruct (tokenize query) as [|first rest] eqn:Htok.
    + left. split; [done|]. split; [done|]. by apply search_no_token.
    + right. exists first, rest. split; [done|]. by apply search_tokens.
Qed.
End Resolver.

(** Over the index built from the corpus, resolution stays below the
    number of records. *)
Lemma search_keyword_in_range (O : SetOrder) (DATA : list Rec)
    (query : string) (indices : list nat) :
  search_keyword O DATA (build_inverted_index DATA) query = Some indices ->
  Forall (fun p => p < length DATA) indices.
Proof.
  destruct (search_cases O DATA (build_inverted_index DATA) query)
    as [[_ ->]|[(_ & _ & ->)|(first & rest & _ & ->)]]; [|done|].
  - intros [= <-]. apply Forall_seq. lia.
  - intros [= <-]. apply Forall_forall. intros p Hp.
    apply elem_of_to_list in Hp.
    apply (intersect_all_subseteq _ _ rest) in Hp.
    by apply index_in_range in Hp.
Qed.

(** C5. A query such as "???" is neither empty nor blank, yet it has no
    token: keyword resolution then reads [tokens[0]] of an empty list and
    ends in an [IndexError] instead of a result. *)
Theorem search_punctuation_faults (O : SetOrder) (DATA : list Rec)
    (INDEX : gmap string (gset nat)) :
  exists query,
    query <> "" /\ ~ blank query /\ tokenize query = []
    /\ search_keyword O DATA INDEX query = None.
Proof.
  exists "???". split; [done|]. split; [by unfold blank|]. split; [done|].
  by apply search_no_token.
Qed.

(** C6. On a corpus of N records a query that is empty or made of
    whitespace only resolves to the positions 0, 1, ..., N-1, each once:
    no keyword filtering takes place. *)
Theorem search_blank_all_positions (O : SetOrder) (DATA : list Rec)
    (INDEX : gmap string (gset nat)) (query : string) :
  blank query ->
  exists ps,
    search_keyword O DATA INDEX query = Some ps
    /\ ps = seq 0 (length DATA)
    /\ NoDup ps
    /\ (forall p, p ∈ ps <-> p < length DATA).
Proof.
  intros Hb. exists (seq 0 (length DATA)).
  split; [by apply search_blank|]. split; [done|].
  split; [apply NoDup_seq|]. intros p. rewrite elem_of_seq. lia.
Qed.

Lemma search_blank_all_positions_witness :
  exists ps,
    search_keyword ascending sample_data sample_index "  " = Some ps
    /\ ps = seq 0 (length sample_data)
    /\ NoDup ps
    /\ (forall p, p ∈ ps <-> p < length sample_data).
Proof.
  apply (search_blank_all_positions ascending sample_data sample_index "  ").
  reflexivity.
Defined.

(** C2. For tokens taken from two one-token queries [a] and [b], the
    query "a b" resolves to the intersection of what [a] and [b] resolve
    to, the query "b a" to the same set, and a token missing from the index
    counts as an empty posting set, which empties the result. *)
Theorem search_and_semantics (O : SetOrder) (DATA : list Rec)
    (INDEX : gmap string (gset nat)) (a b ta tb : string) :
  tokenize a = [ta] ->
  tokenize b = [tb] ->
  exists rab rba ra rb : list nat,
    search_keyword O DATA INDEX (a +:+ " " +:+ b) = Some rab
    /\ search_keyword O DATA INDEX (b +:+ " " +:+ a) = Some rba
    /\ search_keyword O DATA INDEX a = Some ra
    /\ search_keyword O DATA INDEX b = Some rb
    /\ list_to_set rab = (list_to_set ra ∩ list_to_set rb : gset nat)
    /\ (list_to_set rba : gset nat) = list_to_set rab
    /\ (INDEX !! ta = None \/ INDEX !! tb = None -> rab = []).
Proof.
  intros Ha Hb.
  assert (tokenize (a +:+ " " +:+ b) = [ta; tb]) as Hab
    by (by rewrite tokenize_space, Ha, Hb).
  assert (tokenize (b +:+ " " +:+ a) = [tb; ta]) as Hba
    by (by rewrite tokenize_space, Ha, Hb).
  eexists _, _, _, _.
  split; [by apply search_tokens|]. split; [by apply search_tokens|].
  split; [by apply search_tokens|]. split; [by apply search_tokens|].
  simpl. rewrite !list_to_set_to_list.
  split; [done|]. split; [set_solver|].
  unfold postings. intros [-> | ->]; simpl.
  - rewrite (left_absorb_L ∅ (∩)). apply to_list_empty.
  - rewrite (right_absorb_L ∅ (∩)). apply to_list_empty.
Qed.

Lemma search_and_semantics_witness :
  exists rab rba ra rb : list nat,
    search_keyword descending sample_data sample_index
      ("Facade!" +:+ " " +:+ "tower") = Some rab
    /\ search_keyword descending sample_data sample_index
         ("tower" +:+ " " +:+ "Facade!") = Some rba
    /\ search_keyword descending sample_data sample_index "Facade!" = Some ra
    /\ search_keyword descending sample_data sample_index "tower" = Some rb
    /\ list_to_set rab = (list_to_set ra ∩ list_to_set rb : gset nat)
    /\ (list_to_set rba : gset nat) = list_to_set rab
    /\ (sample_index !! "facade" = None \/ sample_index !! "tower" = None
        -> rab = []).
Proof.
  apply (search_and_semantics descending sample_data sample_index
           "Facade!" "tower" "facade" "tower"); reflexivity.
Defined.

(** ** Field filters *)

Section Filter.
Context (DATA : list Rec).
Implicit Types (F : Filters) (rec : Rec) (v : string) (idx p : nat).

Lemma active_nonempty v : v <> "" -> inactive (Some v) = false.
Proof. by destruct v. Qed.

Lemma filter_exact_spec v field_value :
  v <> "" ->
  filter_exact (Some v) field_value = true
  <-> Py.lower v = Py.lower field_value.
Proof.
  intros Hv. unfold filter_exact. rewrite active_nonempty by done.
  simpl. apply bool_decide_eq_true.
Qed.

Lemma filter_contains_spec v field_value :
  v <> "" ->
  filter_contains (Some v) field_value = true <-> ci_substring v field_value.
Proof.
  intros Hv. unfold filter_contains. rewrite active_nonempty by done.
  apply contains_spec.
Qed.

(** [filter_list] looks into the elements one at a time. *)
Lemma filter_list_spec v values_list :
  v <> "" ->
  filter_list (Some v) values_list = true
  <-> exists e, e ∈ values_list /\ ci_substring v e.
Proof.
  intros Hv. unfold filter_list, Py.any. rewrite active_nonempty by done.
  simpl. rewrite existsb_exists. split.
  - intros (b & Hin & Hb). apply in_map_iff in Hin as (e & <- & Hin).
    exists e. split; [by apply list_elem_of_In|]. by apply contains_spec.
  - intros (e & Hin & He). exists true. split; [|done].
    apply in_map_iff. exists e. split; [by apply contains_spec|].
    by apply list_elem_of_In.
Qed.

Lemma filter_list_field_spec v values_list :
  v <> "" ->
  filter_list_field (Some v) values_list = true
  <-> ci_substring v (Py.join " " values_list).
Proof.
  intros Hv. unfold filter_list_field. rewrite active_nonempty by done.
  apply contains_spec.
Qed.

Lemma keeps_passes F idx rec :
  DATA !! idx = Some rec -> keeps DATA F idx rec <-> passes F rec = true.
Proof.
  intros Hrec. unfold keeps, filter_results. simpl. rewrite Hrec.
  destruct (passes F rec); simpl; naive_solver.
Qed.

(** The loop appends, in the order of [indices], the records it keeps,
    and it ends without fault exactly when every index is in range. *)
Lemma filter_loop_Some F indices final recs :
  filter_loop DATA F indices final = Some recs ->
  exists kept,
    recs = final ++ kept
    /\ Forall2 (fun p r => DATA !! p = Some r)
               (List.filter (kept_at DATA F) indices) kept.
Proof.
  revert final. induction indices as [|idx indices IH]; intros final; simpl.
  - intros [= <-]. exists []. by rewrite app_nil_r.
  - unfold kept_at at 1. destruct (DATA !! idx) as [rec|] eqn:Hrec; [|done].
    destruct (passes F rec).
    + intros (kept & -> & Hkept)%IH. exists (rec :: kept).
      rewrite <- app_assoc. split; [done|]. by constructor.
    + apply IH.
Qed.

Lemma filter_loop_in_range F indices final :
  Forall (fun p => p < length DATA) indices ->
  is_Some (filter_loop DATA F indices final).
Proof.
  intros Hall. revert final.
  induction Hall as [|idx indices Hidx _ IH]; intros final; simpl; [done|].
  destruct (lookup_lt_is_Some_2 DATA idx Hidx) as [rec ->].
  destruct (passes F rec); apply IH.
Qed.

Lemma StronglySorted_filter (f : nat -> bool) (l : list nat) :
  StronglySorted lt l -> StronglySorted lt (List.filter f l).
Proof.
  induction 1 as [|x l _ IH Hx]; simpl; [constructor|].
  destruct (f x); [|done]. constructor; [done|].
  apply Forall_forall. intros y Hy%list_elem_of_In%filter_In.
  rewrite Forall_forall in Hx. apply Hx, list_elem_of_In. tauto.
Qed.

Lemma filter_results_sorted F indices recs :
  StronglySorted lt indices ->
  filter_results DATA indices F = Some recs ->
  in_load_order DATA recs.
Proof.
  intros Hsorted (kept & -> & Hkept)%filter_loop_Some.
  exists (List.filter (kept_at DATA F) indices).
  split; [by apply StronglySorted_filter | done].
Qed.

Lemma StronglySorted_seq j n : StronglySorted lt (seq j n).
Proof.
  revert j. induction n as [|n IH]; intros j; simpl; constructor; [done|].
  apply Forall_seq. lia.
Qed.

Lemma passes_all_inactive F rec : all_inactive F -> passes F rec = true.
Proof.
  intros (H1 & H2 & H3 & H4 & H5 & H6 & H7).
  unfold passes, filter_contains, filter_exact, filter_list.
  by rewrite H1, H2, H3, H4, H5, H6, H7.
Qed.

(** Each filter is tried on its own field: replacing one filter changes
    the verdict by the test of that filter and by nothing else. *)
Ltac split_passes :=
  unfold passes; cbn;
  repeat match goal with
         | |- context [negb ?b] => destruct b; cbn
         end;
  rewrite ?andb_true_r, ?andb_false_r; reflexivity.

Lemma passes_set_scene_desc o F rec :
  passes (set_scene_desc o F) rec
  = filter_contains o (get scene_description_enriched "" rec)
    && passes (set_scene_desc None F) rec.
Proof. split_passes. Qed.

Lemma passes_set_spatial o F rec :
  passes (set_spatial o F) rec
  = filter_exact o (get spatial_context "" rec)
    && passes (set_spatial None F) rec.
Proof. split_passes. Qed.

Lemma passes_set_buildings o F rec :
  passes (set_buildings o F) rec
  = filter_list o (get building_types [] rec)
    && passes (set_buildings None F) rec.
Proof. split_passes. Qed.

Lemma passes_set_elements o F rec :
  passes (set_elements o F) rec
  = filter_list o (get architectural_elements [] rec)
    && passes (set_elements None F) rec.
Proof. split_passes. Qed.

Lemma passes_set_persons o F rec :
  passes (set_persons o F) rec
  = filter_list o (get persons [] rec)
    && passes (set_persons None F) rec.
Proof. split_passes. Qed.

Lemma all_inactive_unset F :
  all_inactive F ->
  all_inactive (set_scene_desc None F) /\ all_inactive (set_spatial None F)
  /\ all_inactive (set_buildings None F) /\ all_inactive (set_elements None F)
  /\ all_inactive (set_persons None F).
Proof.
  intros (H1 & H2 & H3 & H4 & H5 & H6 & H7).
  unfold all_inactive. simpl. tauto.
Qed.
End Filter.

(** C3. With the six other filters not set (each absent or the empty
    string), a non-empty filter value on a list field (building_types,
    architectural_elements, persons) keeps a record exactly when the value
    is, up to case, a substring of one of the elements of the list. *)
Theorem list_filter_matches_one_element (DATA : list Rec) (idx : nat)
    (rec : Rec) (v : string) (F : Filters) :
  DATA !! idx = Some rec ->
  v <> "" ->
  all_inactive F ->
  (keeps DATA (set_buildings (Some v) F) idx rec
   <-> exists e, e ∈ get building_types [] rec /\ ci_substring v e)
  /\ (keeps DATA (set_elements (Some v) F) idx rec
      <-> exists e, e ∈ get architectural_elements [] rec /\ ci_substring v e)
  /\ (keeps DATA (set_persons (Some v) F) idx rec
      <-> exists e, e ∈ get persons [] rec /\ ci_substring v e).
Proof.
  intros Hrec Hv HF. rewrite !keeps_passes by done.
  apply all_inactive_unset in HF as (_ & _ & Hb & He & Hp).
  rewrite passes_set_buildings, passes_set_elements, passes_set_persons.
  rewrite !passes_all_inactive, !andb_true_r by done.
  by rewrite !filter_list_spec.
Qed.

Lemma list_filter_matches_one_element_witness :
  (keeps sample_data (set_buildings (Some "TOWER") empty_filters) 1 sample_ruins
   <-> exists e, e ∈ get building_types [] sample_ruins /\ ci_substring "TOWER" e)
  /\ (keeps sample_data (set_elements (Some "TOWER") empty_filters) 1
            sample_ruins
      <-> exists e, e ∈ get architectural_elements [] sample_ruins
                    /\ ci_substring "TOWER" e)
  /\ (keeps sample_data (set_persons (Some "TOWER") empty_filters) 1
            sample_ruins
      <-> exists e, e ∈ get persons [] sample_ruins /\ ci_substring "TOWER" e).
Proof.
  apply (list_filter_matches_one_element sample_data 1 sample_ruins "TOWER"
           empty_filters); [reflexivity | discriminate | by repeat split].
Defined.

(** C3, as first stated, fails: "tower ruins" lies across the two elements
    "brick tower" and "ruins", so it is a substring of the joined list, yet
    the record is dropped. *)
Lemma list_filter_joined_counterexample :
  ~ (keeps sample_data (only_buildings "tower ruins") 1 sample_ruins
     <-> ci_substring "tower ruins"
           (Py.join " " (get building_types [] sample_ruins))).
Proof.
  intros [_ Hkeep].
  assert (keeps sample_data (only_buildings "tower ruins") 1 sample_ruins) as H.
  { apply Hkeep. by apply contains_spec. }
  vm_compute in H. discriminate H.
Qed.

(** C8. A non-empty filter value on spatial_context keeps a record only
    when value and field are equal up to case, whatever the other filters
    are: the record is kept exactly when they are equal and the other
    filters keep it.  On scene_description_enriched the same holds with
    "the value occurs in the field up to case" in place of equality.  With
    the other filters not set the test of the one filter decides alone.
    So "urban" is refused by "suburban area" and accepted by
    "urban decay". *)
Theorem exact_versus_containment (DATA : list Rec) (idx : nat) (rec : Rec)
    (v : string) (F : Filters) :
  DATA !! idx = Some rec ->
  v <> "" ->
  (keeps DATA (set_spatial (Some v) F) idx rec
   <-> Py.lower v = Py.lower (get spatial_context "" rec)
       /\ keeps DATA (set_spatial None F) idx rec)
  /\ (keeps DATA (set_scene_desc (Some v) F) idx rec
      <-> ci_substring v (get scene_description_enriched "" rec)
          /\ keeps DATA (set_scene_desc None F) idx rec)
  /\ (all_inactive F ->
      (keeps DATA (set_spatial (Some v) F) idx rec
       <-> Py.lower v = Py.lower (get spatial_context "" rec))
      /\ (keeps DATA (set_scene_desc (Some v) F) idx rec
          <-> ci_substring v (get scene_description_enriched "" rec)))
  /\ filter_exact (Some "urban") "suburban area" = false
  /\ filter_contains (Some "urban") "urban decay" = true.
Proof.
  intros Hrec Hv. rewrite !keeps_passes by done.
  rewrite passes_set_spatial, passes_set_scene_desc, !andb_true_iff.
  rewrite filter_exact_spec, filter_contains_spec by done.
  split; [done|]. split; [done|]. split; [|done].
  intros (Hd & Hs & _)%all_inactive_unset.
  rewrite !passes_all_inactive by done. tauto.
Qed.

Lemma exact_versus_containment_witness :
  ((keeps sample_data (set_spatial (Some "urban") empty_filters) 1 sample_ruins
    <-> Py.lower "urban" = Py.lower (get spatial_context "" sample_ruins))
   /\ (keeps sample_data (set_scene_desc (Some "urban") empty_filters) 1
             sample_ruins
       <-> ci_substring "urban"
             (get scene_description_enriched "" sample_ruins)))
  /\ (keeps sample_data
            (set_spatial (Some "urban")
               (set_scene_desc (Some "glass") empty_filters)) 8 sample_glass
      <-> Py.lower "urban" = Py.lower (get spatial_context "" sample_glass)
          /\ keeps sample_data
                (set_spatial None (set_scene_desc (Some "glass") empty_filters))
                8 sample_glass).
Proof.
  split.
  - destruct (exact_versus_containment sample_data 1 sample_ruins "urban"
                empty_filters) as (_ & _ & Hunset & _);
      [reflexivity | discriminate |].
    apply Hunset. by repeat split.
  - apply (exact_versus_containment sample_data 8 sample_glass "urban"
             (set_scene_desc (Some "glass") empty_filters));
      [reflexivity | discriminate].
Defined.

(** ** Order of the results *)

(** C4. [filter_results] returns the records of the candidate positions
    that pass the filters in the order in which keyword resolution lists
    the candidates.  That order is ascending by position for a blank
    query, and whenever the candidate list itself is ascending. *)
Theorem filter_results_candidate_order (O : SetOrder) (DATA : list Rec)
    (INDEX : gmap string (gset nat)) (query : string) (F : Filters)
    (indices : list nat) (recs : list Rec) :
  search_keyword O DATA INDEX query = Some indices ->
  filter_results DATA indices F = Some recs ->
  Forall2 (fun p r => DATA !! p = Some r)
          (List.filter (kept_at DATA F) indices) recs
  /\ (blank query -> in_load_order DATA recs)
  /\ (StronglySorted lt indices -> in_load_order DATA recs).
Proof.
  intros Hsearch Hfilter. split; [|split].
  - by apply filter_loop_Some in Hfilter as (kept & -> & Hkept).
  - intros Hb. rewrite search_blank in Hsearch by done.
    injection Hsearch as <-.
    eapply filter_results_sorted; [apply StronglySorted_seq | done].
  - intros Hsorted. by eapply filter_results_sorted.
Qed.

Lemma filter_results_candidate_order_witness :
  Forall2 (fun p r => sample_data !! p = Some r)
          (List.filter (kept_at sample_data no_filters) [8; 1])
          [sample_glass; sample_ruins]
  /\ (blank "tower" -> in_load_order sample_data [sample_glass; sample_ruins])
  /\ (StronglySorted lt [8; 1]
      -> in_load_order sample_data [sample_glass; sample_ruins]).
Proof.
  apply (filter_results_candidate_order descending sample_data sample_index
           "tower" no_filters); reflexivity.
Defined.

(** C4, as first stated, fails: the candidates of "tower" are the
    positions 1 and 8, and when the set lists 8 before 1 the ninth record
    comes out before the second. *)
Lemma filter_results_order_counterexample :
  search_keyword descending sample_data sample_index "tower" = Some [8; 1]
  /\ filter_results sample_data [8; 1] no_filters
     = Some [sample_glass; sample_ruins]
  /\ ~ in_load_order sample_data [sample_glass; sample_ruins].
Proof.
  split; [reflexivity|]. split; [reflexivity|].
  intros (ps & Hsorted & Hrecs).
  apply Forall2_cons_inv_r in Hrecs as (p & ps' & Hp & Hrecs & ->).
  apply Forall2_cons_inv_r in Hrecs as (q & ps'' & Hq & Hrecs & ->).
  apply StronglySorted_cons in Hsorted as [Hlt _].
  apply Forall_cons in Hlt as [Hlt _].
  destruct (decide (q = 1)) as [->|Hne].
  - assert (p = 0) as -> by lia. vm_compute in Hp. discriminate Hp.
  - do 9 (destruct q as [|q]; [try done; vm_compute in Hq; discriminate Hq|]).
    vm_compute in Hq. discriminate Hq.
Qed.

(** C10. Whatever keyword resolution returns over the index built from
    the corpus lies below the number of records, so the lookups of
    [filter_results] all succeed. *)
Theorem search_positions_in_range (O : SetOrder) (DATA : list Rec)
    (query : string) (F : Filters) (indices : list nat) :
  search_keyword O DATA (build_inverted_index DATA) query = Some indices ->
  Forall (fun p => p < length DATA) indices
  /\ is_Some (filter_results DATA indices F).
Proof.
  intros Hrange%search_keyword_in_range.
  split; [done|]. by apply filter_loop_in_range.
Qed.

Lemma search_positions_in_range_witness :
  Forall (fun p => p < length sample_data) [8; 1]
  /\ is_Some (filter_results sample_data [8; 1] (only_persons "monk")).
Proof.
  apply (search_positions_in_range descending sample_data "tower"
           (only_persons "monk") [8; 1]).
  reflexivity.
Defined.

(** ** The whole request *)

(** Over the index built from the corpus a request faults on a page
    argument that [int] rejects and on a query without tokens, and on
    nothing else. *)
Lemma search_page_fault (int_ : string -> option Z) (O : SetOrder)
    (DATA : list Rec) (query : string) (F : Filters)
    (page_arg : option string) :
  search_page int_ O DATA (build_inverted_index DATA) query F page_arg = None
  <-> page_number int_ page_arg = None
      \/ (~ blank query /\ tokenize query = []).
Proof.
  unfold search_page.
  destruct (page_number int_ page_arg) as [page|]; [|split; auto].
  destruct (search_keyword O DATA (build_inverted_index DATA) query)
    as [indices|] eqn:Hsearch.
  - apply search_keyword_in_range in Hsearch as Hrange.
    destruct (filter_loop_in_range DATA F indices [] Hrange) as [recs Hrecs].
    unfold filter_results. rewrite Hrecs. split; [done|].
    intros [?|[Hnb Htok]]; [done|]. by rewrite search_no_token in Hsearch.
  - split; [|done]. intros _. right.
    destruct (search_cases O DATA (build_inverted_index DATA) query)
      as [[_ H]|[(Hnb & Htok & _)|(first & rest & _ & H)]];
      [by rewrite H in Hsearch | done | by rewrite H in Hsearch].
Qed.

(** ** Paginator *)

Section Paginator.
Local Open Scope Z_scope.
Implicit Types (results_all : list Rec) (page : Z).

Lemma total_pages_ceil n :
  0 <= n ->
  is_ceil_div n RESULTS_PER_PAGE
              ((n + RESULTS_PER_PAGE - 1) / RESULTS_PER_PAGE).
Proof.
  unfold is_ceil_div, RESULTS_PER_PAGE. intros Hn.
  pose proof (Z.div_mod (n + 48 - 1) 48) as Hdiv.
  pose proof (Z.mod_pos_bound (n + 48 - 1) 48). lia.
Qed.

Lemma slice_page results_all page :
  1 <= page ->
  slice results_all ((page - 1) * RESULTS_PER_PAGE)
        ((page - 1) * RESULTS_PER_PAGE + RESULTS_PER_PAGE)
  = take 48 (drop (Z.to_nat ((page - 1) * 48)) results_all).
Proof.
  unfold slice, RESULTS_PER_PAGE. intros Hpage.
  set (n := Z.of_nat (length results_all)).
  set (start := (page - 1) * 48).
  assert (0 <= start) by (unfold start; lia).
  assert (0 <= n) by (unfold n; lia).
  destruct (Z.ltb_spec start 0); [lia|].
  destruct (Z.ltb_spec (start + 48) 0); [lia|].
  destruct (decide (n <= start)) as [Hge|Hlt].
  - rewrite !drop_ge by lia. by rewrite !take_nil.
  - replace (Z.to_nat (Z.min start n)) with (Z.to_nat start) by lia.
    destruct (decide (start + 48 <= n)).
    + do 2 f_equal. lia.
    + rewrite !take_ge; [done| |]; rewrite length_drop; lia.
Qed.
End Paginator.

(** C7. With 48 results to a page, the page count is the larger of 1 and
    the ceiling of [total_results / 48]; a page from 1 on is the block of
    up to 48 results that follows the [48 * (page - 1)] earlier ones, and
    it is empty, without fault, past the last page.  For 100 results there
    are 3 pages; page 1 has 48 items, page 3 has 4 and page 4 has none. *)
Theorem paginate_pages (results_all : list Rec) (page : Z) :
  total_results (paginate results_all page) = Z.of_nat (length results_all)
  /\ (exists c,
        is_ceil_div (total_results (paginate results_all page)) 48 c
        /\ total_pages (paginate results_all page) = Z.max 1 c)
  /\ ((1 <= page)%Z ->
      results_page (paginate results_all page)
      = take 48 (drop (Z.to_nat ((page - 1) * 48)) results_all))
  /\ ((total_pages (paginate results_all page) < page)%Z ->
      results_page (paginate results_all page) = [])
  /\ (length results_all = 100 ->
      total_pages (paginate results_all page) = 3%Z
      /\ length (results_page (paginate results_all 1)) = 48
      /\ length (results_page (paginate results_all 3)) = 4
      /\ length (results_page (paginate results_all 4)) = 0).
Proof.
  split; [done|]. split; [|split; [|split]].
  - eexists. split; [|done]. apply total_pages_ceil. simpl. lia.
  - intros Hpage. by apply slice_page.
  - simpl. intros Hlast.
    pose proof (total_pages_ceil (Z.of_nat (length results_all))) as Hc.
    unfold is_ceil_div, RESULTS_PER_PAGE in *.
    rewrite slice_page by lia. rewrite drop_ge by lia. done.
  - intros Hlen. simpl. rewrite !slice_page by lia.
    rewrite !length_take, !length_drop, Hlen. done.
Qed.

Lemma paginate_pages_witness :
  total_pages (paginate (replicate 100 sample_ruins) 4) = 3%Z
  /\ results_page (paginate (replicate 100 sample_ruins) 4) = []
  /\ results_page (paginate (replicate 100 sample_ruins) 3)
     = replicate 4 sample_ruins
  /\ length (results_page (paginate (replicate 100 sample_ruins) 1)) = 48.
Proof.
  destruct (paginate_pages (replicate 100 sample_ruins) 4)
    as (_ & _ & _ & Hpast & Hhundred).
  destruct (paginate_pages (replicate 100 sample_ruins) 3)
    as (_ & _ & Hthird & _).
  split; [by apply Hhundred|]. split; [by apply Hpast|].
  split; [by rewrite Hthird|]. by apply Hhundred.
Defined.

(** * Further properties of the engine *)

(** ** Lowercasing and joining *)

Section MoreStrings.
Implicit Types (s t u : string) (c : ascii) (l : list string).

Lemma string_app_assoc s t u : (s +:+ t) +:+ u = s +:+ t +:+ u.
Proof. induction s as [|c s IH]; [done|]. by rewrite !app_cons, IH. Qed.

Lemma all_chars_append P s t :
  all_chars P (s +:+ t) = all_chars P s && all_chars P t.
Proof.
  induction s as [|c s IH]; [done|].
  rewrite app_cons. simpl. by rewrite IH, andb_assoc.
Qed.

Lemma all_chars_and P Q s :
  all_chars P s = true -> all_chars Q s = true ->
  all_chars (fun c => P c && Q c) s = true.
Proof.
  induction s as [|c s IH]; simpl; [done|].
  intros [-> ?]%andb_true_iff [-> ?]%andb_true_iff. simpl. auto.
Qed.

Lemma all_chars_impl (P Q : ascii -> bool) s :
  (forall c, P c = true -> Q c = true) ->
  all_chars P s = true -> all_chars Q s = true.
Proof.
  intros HPQ. induction s as [|c s IH]; simpl; [done|].
  intros [Hc Hs]%andb_true_iff. by rewrite (HPQ c Hc), IH.
Qed.

Lemma char_lower_idem c : Py.char_lower (Py.char_lower c) = Py.char_lower c.
Proof. by destruct c as [[] [] [] [] [] [] [] []]. Qed.

Lemma lower_idem s : Py.lower (Py.lower s) = Py.lower s.
Proof.
  induction s as [|c s IH]; simpl; [done|]. by rewrite char_lower_idem, IH.
Qed.

Lemma char_lower_not_capital c :
  negb (Py.in_range 65 90 (Py.char_lower c)) = true.
Proof. by destruct c as [[] [] [] [] [] [] [] []]. Qed.

Lemma lower_no_capital s :
  all_chars (fun c => negb (Py.in_range 65 90 c)) (Py.lower s) = true.
Proof.
  induction s as [|c s IH]; simpl; [done|].
  by rewrite char_lower_not_capital, IH.
Qed.

Lemma word_not_capital c :
  word_class c && negb (Py.in_range 65 90 c) = true -> lowercase_word c = true.
Proof. destruct c as [[] [] [] [] [] [] [] []]; vm_compute; congruence. Qed.

Lemma lowercase_word_fixed c :
  lowercase_word c = true -> Py.char_lower c = c /\ word_class c = true.
Proof. destruct c as [[] [] [] [] [] [] [] []]; vm_compute; try done. Qed.

Lemma lowercase_lower s :
  all_chars lowercase_word s = true -> Py.lower s = s.
Proof.
  induction s as [|c s IH]; simpl; [done|].
  intros [Hc Hs]%andb_true_iff.
  by rewrite (proj1 (lowercase_word_fixed c Hc)), IH.
Qed.

Lemma join_cons2 sep s t l :
  Py.join sep (s :: t :: l) = s +:+ sep +:+ Py.join sep (t :: l).
Proof. reflexivity. Qed.

Lemma lower_join sep l :
  Py.lower (Py.join sep l) = Py.join (Py.lower sep) (map Py.lower l).
Proof.
  induction l as [|s [|t l] IH]; [done..|].
  rewrite join_cons2, !lower_app, IH. done.
Qed.

(** An element of a list lies inside the joined list. *)
Lemma elem_of_join_substring sep s l :
  s ∈ l -> substring s (Py.join sep l).
Proof.
  unfold substring. induction l as [|t [|u l] IH].
  - by intros ?%elem_of_nil.
  - intros ->%list_elem_of_singleton. exists "", "". simpl.
    by rewrite app_empty_l, app_empty_r.
  - rewrite join_cons2. intros [->|Hin]%elem_of_cons.
    + by exists "", (sep +:+ Py.join sep (u :: l)).
    + destruct (IH Hin) as (pre & post & ->).
      exists (t +:+ sep +:+ pre), post. by rewrite !string_app_assoc.
Qed.

Lemma substring_trans s t u : substring s t -> substring t u -> substring s u.
Proof.
  intros (pre & post & ->) (pre' & post' & ->).
  exists (pre' +:+ pre), (post +:+ post'). by rewrite !string_app_assoc.
Qed.

Lemma substring_lower s t : substring s t -> substring (Py.lower s) (Py.lower t).
Proof.
  intros (pre & post & ->). exists (Py.lower pre), (Py.lower post).
  by rewrite !lower_app.
Qed.

Lemma endswith_spec suf s :
  Py.endswith suf s = true <-> exists pre, s = pre +:+ suf.
Proof.
  induction s as [|c s IH]; simpl.
  - case_decide as Heq.
    + subst. split; [by exists ""|done].
    + split; [done|]. intros [[|? ?] Hpre]; [|discriminate Hpre].
      by rewrite app_empty_l in Hpre.
  - case_decide as Heq.
    + subst. split; [by exists ""|done].
    + rewrite IH. split.
      * intros [pre ->]. by exists (String c pre).
      * intros [[|a pre] Hpre]; [by rewrite app_empty_l in Hpre|].
        rewrite app_cons in Hpre. injection Hpre as _ ->. by exists pre.
Qed.
End MoreStrings.

(** ** More on the tokenizer *)

Section MoreTokenizer.
Implicit Types (s t tok : string) (l : list string).

Lemma tokenize_lower s : tokenize (Py.lower s) = tokenize s.
Proof. unfold tokenize. by rewrite lower_idem. Qed.

Lemma findall_join l :
  findall_word [] (Py.join " " l) = concat (map (findall_word []) l).
Proof.
  induction l as [|s [|t l] IH]; [done| |].
  - simpl. by rewrite app_nil_r.
  - rewrite join_cons2, app_cons, app_empty_l, findall_split by done.
    by rewrite IH.
Qed.

Lemma tokenize_join l :
  tokenize (Py.join " " l) = concat (map tokenize l).
Proof.
  unfold tokenize. rewrite lower_join. change (Py.lower " ") with " ".
  rewrite findall_join, map_map. done.
Qed.

Lemma runs_all_chars P s toks :
  maximal_runs s toks -> all_chars P s = true ->
  Forall (fun tok => all_chars P tok = true) toks.
Proof.
  induction 1 as [|sep tok rest toks _ _ _ _ _ IH]; [by constructor|].
  rewrite !all_chars_append.
  intros [_ [Htok Hrest]%andb_true_iff]%andb_true_iff.
  constructor; auto.
Qed.

Lemma token_lowercase_word s tok :
  tok ∈ tokenize s -> tok <> "" /\ all_chars lowercase_word tok = true.
Proof.
  intros Hin. pose proof (findall_runs (Py.lower s)) as Hruns.
  fold (tokenize s) in Hruns.
  pose proof (runs_tokens_word _ _ Hruns) as Hword.
  pose proof (runs_all_chars _ _ _ Hruns (lower_no_capital s)) as Hlow.
  rewrite Forall_forall in Hword, Hlow.
  destruct (Hword tok Hin) as [Hne Hw]. split; [done|].
  eapply all_chars_impl; [apply word_not_capital|].
  apply all_chars_and; [done|]. by apply Hlow.
Qed.

Lemma tokenize_lowercase_word tok :
  tok <> "" -> all_chars lowercase_word tok = true -> tokenize tok = [tok].
Proof.
  intros Hne Hlow. unfold tokenize. rewrite lowercase_lower by done.
  apply runs_findall.
  rewrite <- (app_empty_r tok) at 1. rewrite <- (app_empty_l (tok +:+ "")).
  constructor; try done.
  - eapply all_chars_impl; [|done]. intros c Hc.
    by apply lowercase_word_fixed in Hc as [_ ?].
  - by constructor.
Qed.
End MoreTokenizer.

(** X1. Every token is non-empty and made of the characters a-z, 0-9 and
    underscore only, and a token given back to [tokenize] comes out as that
    one token. *)
Theorem tokens_are_lowercase_words (text tok : string) :
  tok ∈ tokenize text ->
  tok <> "" /\ all_chars lowercase_word tok = true /\ tokenize tok = [tok].
Proof.
  intros [Hne Hlow]%token_lowercase_word.
  split; [done|]. split; [done|]. by apply tokenize_lowercase_word.
Qed.

Lemma tokens_are_lowercase_words_witness :
  "foo_bar" <> ""
  /\ all_chars lowercase_word "foo_bar" = true
  /\ tokenize "foo_bar" = ["foo_bar"].
Proof.
  apply (tokens_are_lowercase_words "Foo_Bar 123!" "foo_bar").
  apply list_elem_of_here.
Defined.

(** X2. The tokens of a record's search text are the tokens of its four
    text fields followed by those of the elements of its three list
    fields, in that order; an absent field gives none. *)
Theorem search_text_tokens (d : Doc) :
  tokenize (search_text_of d)
  = tokenize (default "" (scene_description_enriched d))
    ++ tokenize (default "" (scene_interpretation d))
    ++ tokenize (default "" (spatial_context d))
    ++ tokenize (default "" (architectural_context d))
    ++ concat (map tokenize (default [] (building_types d)))
    ++ concat (map tokenize (default [] (architectural_elements d)))
    ++ concat (map tokenize (default [] (persons d))).
Proof.
  unfold search_text_of. rewrite tokenize_lower, tokenize_join. simpl.
  by rewrite !tokenize_join, app_nil_r.
Qed.

(** ** More on loading and the index *)

Section MoreIndex.
Implicit Types (index : gmap string (gset nat)) (data more : list Rec).
Implicit Types (t tok : string) (p i : nat).

Lemma load_fold data json_dir :
  foldl load_file data json_dir
  = data ++ map record_of (List.filter is_json json_dir).
Proof.
  revert data. induction json_dir as [|[filename d] json_dir IH];
    intros data; simpl.
  - by rewrite app_nil_r.
  - rewrite IH. unfold is_json at 2. simpl.
    destruct (Py.endswith ".json" filename); [|done].
    by rewrite <- app_assoc.
Qed.

Lemma add_posting_no_empty i index tok :
  no_empty_posting index -> no_empty_posting (add_posting i index tok).
Proof.
  intros Hinv t s. unfold add_posting.
  destruct (decide (tok = t)) as [->|Hne].
  - rewrite lookup_insert_eq. intros [= <-]. set_solver.
  - rewrite lookup_insert_ne by done. apply Hinv.
Qed.

Lemma fold_posting_no_empty i toks index :
  no_empty_posting index -> no_empty_posting (foldl (add_posting i) index toks).
Proof.
  revert index. induction toks as [|tok toks IH]; intros index Hinv; simpl.
  - done.
  - by apply IH, add_posting_no_empty.
Qed.

Lemma build_no_empty data : no_empty_posting (build_inverted_index data).
Proof.
  induction data as [|record data IH] using rev_ind.
  - intros t s. unfold build_inverted_index. simpl. by rewrite lookup_empty.
  - rewrite build_snoc. by apply fold_posting_no_empty.
Qed.

Lemma elem_of_intersect_all index (results : gset nat) tokens p :
  p ∈ intersect_all index results tokens
  <-> p ∈ results /\ forall t, t ∈ tokens -> p ∈ postings index t.
Proof.
  revert results. induction tokens as [|tok tokens IH]; intros results; simpl.
  - split; [|tauto]. intros Hp. split; [done|]. by intros t ?%elem_of_nil.
  - rewrite IH, elem_of_intersection. split.
    + intros [[Hp Htok] Hrest]. split; [done|].
      intros t [->|Hin]%elem_of_cons; auto.
    + intros [Hp Hall]. split; [split; [done|]|].
      * apply Hall, list_elem_of_here.
      * intros t Hin. by apply Hall, list_elem_of_further.
Qed.
End MoreIndex.

(** X3. [load_dataset] keeps the entries whose name ends in ".json", in
    the order of the listing, and makes of each the record with that
    filename and the search text derived from its fields; other entries
    leave no trace. *)
Theorem load_dataset_json_files (json_dir : list (string * Doc)) :
  load_dataset json_dir = map record_of (List.filter is_json json_dir)
  /\ Forall (fun record =>
               (exists stem, _filename record = stem +:+ ".json")
               /\ _search_text record = search_text_of (doc record))
            (load_dataset json_dir).
Proof.
  unfold load_dataset. rewrite load_fold. simpl. split; [done|].
  apply Forall_forall. intros record Hin%list_elem_of_In.
  apply in_map_iff in Hin as (entry & <- & Hin).
  apply filter_In in Hin as [_ Hjson]. split; [|done].
  by apply endswith_spec.
Qed.

(** X4. A token is a key of the built index exactly when some record has
    it among the tokens of its search text, and no key holds an empty
    posting set. *)
Theorem index_keys (data : list Rec) (t : string) :
  (is_Some (build_inverted_index data !! t)
   <-> exists p record,
         data !! p = Some record /\ t ∈ tokenize (_search_text record))
  /\ build_inverted_index data !! t <> Some ∅.
Proof.
  pose proof (build_no_empty data) as Hinv.
  split; [|intros H; by apply Hinv in H]. split.
  - intros [s Hs]. destruct (set_choose_L s) as [p Hp]; [by eapply Hinv|].
    exists p. apply elem_of_index. unfold postings. by rewrite Hs.
  - intros (p & record & Hp). assert (p ∈ postings (build_inverted_index data) t)
      as Hin by (apply elem_of_index; eauto).
    unfold postings in Hin.
    destruct (build_inverted_index data !! t); [done|]. set_solver.
Qed.

(** X5. Records appended to the corpus leave the postings of the earlier
    positions as they were: below the old length a position is in a
    posting set of the longer corpus exactly when it was in that of the
    shorter one. *)
Theorem index_stable_under_append (data more : list Rec) (t : string)
    (p : nat) :
  p < length data ->
  p ∈ postings (build_inverted_index (data ++ more)) t
  <-> p ∈ postings (build_inverted_index data) t.
Proof.
  intros Hp. rewrite !elem_of_index. by rewrite lookup_app_l.
Qed.

Lemma index_stable_under_append_witness :
  1 ∈ postings (build_inverted_index (take 2 sample_data ++ drop 2 sample_data))
               "tower"
  <-> 1 ∈ postings (build_inverted_index (take 2 sample_data)) "tower".
Proof.
  apply (index_stable_under_append (take 2 sample_data) (drop 2 sample_data)
           "tower" 1).
  vm_compute. lia.
Defined.

(** ** More on keyword resolution *)

Section MoreResolver.
Context (O : SetOrder) (DATA : list Rec) (INDEX : gmap string (gset nat)).
Implicit Types (query t : string) (p : nat).

Lemma elem_of_search_tokens query first rest p :
  tokenize query = first :: rest ->
  p ∈ to_list O (intersect_all INDEX (postings INDEX first) rest)
  <-> forall t, t ∈ tokenize query -> p ∈ postings INDEX t.
Proof.
  intros ->. rewrite elem_of_to_list, elem_of_intersect_all. split.
  - intros [Hfirst Hrest] t [->|Hin]%elem_of_cons; auto.
  - intros Hall. split.
    + apply Hall, list_elem_of_here.
    + intros t Hin. by apply Hall, list_elem_of_further.
Qed.

Lemma search_tokens_spec query :
  tokenize query <> [] ->
  exists indices,
    search_keyword O DATA INDEX query = Some indices
    /\ NoDup indices
    /\ (forall p,
          p ∈ indices
          <-> forall t, t ∈ tokenize query -> p ∈ postings INDEX t).
Proof.
  intros Hne. destruct (tokenize query) as [|first rest] eqn:Htok; [done|].
  eexists. split; [by apply search_tokens|].
  split; [apply NoDup_to_list|]. intros p.
  rewrite <- Htok. by apply elem_of_search_tokens.
Qed.

Lemma search_NoDup query indices :
  search_keyword O DATA INDEX query = Some indices -> NoDup indices.
Proof.
  destruct (search_cases O DATA INDEX query)
    as [[_ ->]|[(_ & _ & ->)|(first & rest & _ & ->)]]; [|done|].
  - intros [= <-]. apply NoDup_seq.
  - intros [= <-]. apply NoDup_to_list.
Qed.
End MoreResolver.

(** X6. A query with at least one token resolves, without fault, to a
    list without repetition that holds exactly the positions found in the
    posting set of every token of the query, however many tokens there
    are. *)
Theorem search_all_tokens (O : SetOrder) (DATA : list Rec)
    (INDEX : gmap string (gset nat)) (query : string) :
  tokenize query <> [] ->
  exists indices,
    search_keyword O DATA INDEX query = Some indices
    /\ NoDup indices
    /\ (forall p,
          p ∈ indices
          <-> forall t, t ∈ tokenize query -> p ∈ postings INDEX t).
Proof. apply search_tokens_spec. Qed.

Lemma search_all_tokens_witness :
  exists indices,
    search_keyword descending sample_data sample_index
      "a Tower, a GLASS tower" = Some indices
    /\ NoDup indices
    /\ (forall p,
          p ∈ indices
          <-> forall t, t ∈ tokenize "a Tower, a GLASS tower"
                        -> p ∈ postings sample_index t).
Proof.
  apply (search_all_tokens descending sample_data sample_index
           "a Tower, a GLASS tower").
  discriminate.
Defined.

(** X7. Two queries that have at least one token and the same set of
    tokens, whatever their case, punctuation, order and repetitions,
    resolve to the same positions, the order of the list apart.  (Without
    a token the two may part: a blank query returns every position and a
    query of punctuation faults.) *)
Theorem search_same_tokens (O : SetOrder) (DATA : list Rec)
    (INDEX : gmap string (gset nat)) (query1 query2 : string) :
  tokenize query1 <> [] ->
  (forall t, t ∈ tokenize query1 <-> t ∈ tokenize query2) ->
  exists indices1 indices2,
    search_keyword O DATA INDEX query1 = Some indices1
    /\ search_keyword O DATA INDEX query2 = Some indices2
    /\ indices1 ≡ₚ indices2.
Proof.
  intros Hne1 Hsame.
  assert (tokenize query2 <> []) as Hne2.
  { destruct (tokenize query1) as [|t ?]; [done|]. intros H2.
    assert (t ∈ tokenize query2) as Hin by (apply Hsame, list_elem_of_here).
    rewrite H2 in Hin. by apply elem_of_nil in Hin. }
  destruct (search_tokens_spec O DATA INDEX query1 Hne1)
    as (indices1 & H1 & Hnd1 & Hin1).
  destruct (search_tokens_spec O DATA INDEX query2 Hne2)
    as (indices2 & H2 & Hnd2 & Hin2).
  exists indices1, indices2. split; [done|]. split; [done|].
  apply NoDup_Permutation; [done..|]. intros p.
  rewrite Hin1, Hin2. split; intros Hall t Ht; by apply Hall, Hsame.
Qed.

Lemma search_same_tokens_witness :
  exists indices1 indices2,
    search_keyword descending sample_data sample_index "Tower glass"
    = Some indices1
    /\ search_keyword descending sample_data sample_index
         "GLASS, tower; tower!" = Some indices2
    /\ indices1 ≡ₚ indices2.
Proof.
  apply (search_same_tokens descending sample_data sample_index
           "Tower glass" "GLASS, tower; tower!"); [discriminate|].
  intros t.
  change (tokenize "Tower glass") with ["tower"; "glass"].
  change (tokenize "GLASS, tower; tower!") with ["glass"; "tower"; "tower"].
  rewrite !elem_of_cons, elem_of_nil. tauto.
Defined.

(** X8. A token of a record's search text, used as a query over the
    index built from the corpus, finds that record: the list returned
    holds the record's position. *)
Theorem search_finds_indexed_record (O : SetOrder) (DATA : list Rec)
    (p : nat) (record : Rec) (t : string) :
  DATA !! p = Some record ->
  t ∈ tokenize (_search_text record) ->
  exists indices,
    search_keyword O DATA (build_inverted_index DATA) t = Some indices
    /\ p ∈ indices.
Proof.
  intros Hrec Ht.
  destruct (token_lowercase_word _ _ Ht) as [Hne Hlow].
  pose proof (tokenize_lowercase_word t Hne Hlow) as Htok.
  eexists. split; [by apply search_tokens|]. simpl.
  apply elem_of_to_list, elem_of_index. eauto.
Qed.

Lemma search_finds_indexed_record_witness :
  exists indices,
    search_keyword descending sample_data (build_inverted_index sample_data)
      "monk" = Some indices
    /\ 8 ∈ indices.
Proof.
  apply (search_finds_indexed_record descending sample_data 8 sample_glass
           "monk"); [reflexivity|].
  change (tokenize (_search_text sample_glass))
    with ["glass"; "facade"; "a"; "tower"; "a"; "tower"; "urban"; "tower";
          "king"; "monk"].
  rewrite !elem_of_cons. tauto.
Defined.

(** X9. Whatever the index, keyword resolution faults in one case only:
    a query that is not blank and has no token. *)
Theorem search_fault_iff (O : SetOrder) (DATA : list Rec)
    (INDEX : gmap string (gset nat)) (query : string) :
  search_keyword O DATA INDEX query = None
  <-> ~ blank query /\ tokenize query = [].
Proof.
  destruct (search_cases O DATA INDEX query)
    as [[Hb ->]|[(Hnb & Htok & ->)|(first & rest & Htok & ->)]].
  - split; [done|]. by intros [Hnb _].
  - done.
  - split; [done|]. intros [_ Hnil]. by rewrite Hnil in Htok.
Qed.

(** ** More on the field filters *)

Section MoreFilter.
Context (DATA : list Rec).
Implicit Types (F : Filters) (rec : Rec) (indices : list nat).
Implicit Types (final recs : list Rec).

Lemma filter_loop_None F indices final :
  filter_loop DATA F indices final = None
  <-> Exists (fun idx => length DATA <= idx) indices.
Proof.
  revert final. induction indices as [|idx indices IH]; intros final; simpl.
  - split; [done|]. by intros ?%Exists_nil.
  - rewrite Exists_cons. destruct (DATA !! idx) as [rec|] eqn:Hrec.
    + apply lookup_lt_Some in Hrec.
      destruct (passes F rec); rewrite IH; split; auto; intros [?|?]; [lia|done|lia|done].
    + apply lookup_ge_None in Hrec. split; auto.
Qed.

Lemma filter_loop_all F indices final recs :
  (forall rec, passes F rec = true) ->
  filter_loop DATA F indices final = Some recs ->
  exists kept,
    recs = final ++ kept
    /\ Forall2 (fun p r => DATA !! p = Some r) indices kept.
Proof.
  intros Hall. revert final.
  induction indices as [|idx indices IH]; intros final; simpl.
  - intros [= <-]. exists []. by rewrite app_nil_r.
  - destruct (DATA !! idx) as [rec|] eqn:Hrec; [|done]. rewrite Hall.
    intros (kept & -> & Hkept)%IH. exists (rec :: kept).
    rewrite <- app_assoc. split; [done|]. by constructor.
Qed.

Lemma filter_loop_sublist F indices final final' recs :
  filter_loop DATA F indices final = Some recs ->
  exists kept every,
    recs = final ++ kept
    /\ filter_loop DATA no_filters indices final' = Some (final' ++ every)
    /\ kept `sublist_of` every.
Proof.
  revert final final'.
  induction indices as [|idx indices IH]; intros final final'; simpl.
  - intros [= <-]. exists [], []. by rewrite !app_nil_r.
  - destruct (DATA !! idx) as [rec|] eqn:Hrec; [|done].
    change (passes no_filters rec) with true. cbv iota.
    destruct (passes F rec).
    + intros (kept & every & -> & Hevery & Hsub)%(IH _ (final' ++ [rec])).
      exists (rec :: kept), (rec :: every).
      rewrite <- !app_assoc in *. split; [done|]. split; [done|].
      by apply sublist_skip.
    + intros (kept & every & -> & Hevery & Hsub)%(IH _ (final' ++ [rec])).
      exists kept, (rec :: every).
      rewrite <- !app_assoc in *. split; [done|]. split; [done|].
      by apply sublist_cons.
Qed.
End MoreFilter.

(** X10. [filter_results] faults exactly when one of the positions it is
    given lies at or past the end of the corpus, whatever the filters,
    since the record is read before any filter is tried. *)
Theorem filter_results_fault_iff (DATA : list Rec) (indices : list nat)
    (F : Filters) :
  filter_results DATA indices F = None
  <-> Exists (fun idx => length DATA <= idx) indices.
Proof. apply filter_loop_None. Qed.

(** X11. With no filter set (each absent or the empty string) every
    candidate is kept: the result lists the records at the positions
    given, one for one and in the same order. *)
Theorem filter_results_no_filter (DATA : list Rec) (indices : list nat)
    (F : Filters) (recs : list Rec) :
  all_inactive F ->
  filter_results DATA indices F = Some recs ->
  Forall2 (fun p r => DATA !! p = Some r) indices recs.
Proof.
  intros Hin Hres.
  apply filter_loop_all in Hres as (kept & -> & Hkept); [done|].
  intros rec. by apply passes_all_inactive.
Qed.

Lemma filter_results_no_filter_witness :
  Forall2 (fun p r => sample_data !! p = Some r) [8; 1; 1]
          [sample_glass; sample_ruins; sample_ruins].
Proof.
  apply (filter_results_no_filter sample_data [8; 1; 1]
           {| f_scene_desc := Some ""; f_scene_interp := None;
              f_spatial := Some ""; f_arch := None; f_buildings := Some "";
              f_elements := None; f_persons := None |}).
  - by repeat split.
  - reflexivity.
Defined.

(** X12. Filters only take records away: what [filter_results] returns
    under any filters is, in order, a sub-list of what it returns for the
    same positions with no filter at all. *)
Theorem filter_results_narrows (DATA : list Rec) (indices : list nat)
    (F : Filters) (recs : list Rec) :
  filter_results DATA indices F = Some recs ->
  exists every,
    filter_results DATA indices no_filters = Some every
    /\ recs `sublist_of` every
    /\ length recs <= length indices.
Proof.
  intros Hres. unfold filter_results in *.
  pose proof Hres as Hsub.
  apply (filter_loop_sublist DATA F indices [] [])
    in Hsub as (kept & every & -> & Hevery & Hsub).
  exists every. split; [done|]. split; [done|].
  apply filter_loop_all in Hevery as (every' & Heq & Hall); [|done].
  simpl in *. subst every'.
  apply Forall2_length in Hall. apply sublist_length in Hsub. lia.
Qed.

Lemma filter_results_narrows_witness :
  exists every,
    filter_results sample_data [8; 1] no_filters = Some every
    /\ [sample_glass] `sublist_of` every
    /\ length [sample_glass] <= length [8; 1].
Proof.
  apply (filter_results_narrows sample_data [8; 1] (only_persons "MONK")).
  reflexivity.
Defined.

(** X13. [filter_list_field] accepts whatever [filter_list] accepts: a
    value found inside one element is found inside the joined list. *)
Theorem filter_list_implies_joined (text : option string)
    (values_list : list string) :
  filter_list text values_list = true ->
  filter_list_field text values_list = true.
Proof.
  unfold filter_list_field. destruct (inactive text) eqn:Hact; [done|].
  destruct text as [v|]; [|done].
  assert (v <> "") as Hv by (by destruct v).
  rewrite filter_list_spec by done. intros (e & Hin & Hsub).
  apply contains_spec. eapply substring_trans; [exact Hsub|].
  by apply substring_lower, elem_of_join_substring.
Qed.

Lemma filter_list_implies_joined_witness :
  filter_list_field (Some "Tower") ["brick tower"; "ruins"] = true.
Proof.
  apply (filter_list_implies_joined (Some "Tower") ["brick tower"; "ruins"]).
  reflexivity.
Defined.

(** X14. On a field that is present, [filter_field] decides as
    [filter_contains] does, the empty field included; on an absent field
    it accepts only when the filter is not set. *)
Theorem filter_field_as_contains (text : option string) (field_value : string) :
  filter_field text (Some field_value) = filter_contains text field_value
  /\ filter_field text None = inactive text.
Proof.
  unfold filter_field, filter_contains. split.
  - destruct (inactive text) eqn:Hact; [done|].
    destruct field_value as [|c s]; [|done]. simpl.
    destruct text as [[|a v]|]; try done.
  - by destruct (inactive text).
Qed.

(** ** Resolution followed by filtering *)

Section Pipeline.
Context (O : SetOrder) (DATA : list Rec).
Implicit Types (query : string) (F : Filters) (indices : list nat).
Implicit Types (recs : list Rec) (p : nat).

Lemma elem_of_search query indices p :
  search_keyword O DATA (build_inverted_index DATA) query = Some indices ->
  p ∈ indices
  <-> exists rec, DATA !! p = Some rec /\ has_all_tokens query rec.
Proof.
  unfold has_all_tokens.
  destruct (search_cases O DATA (build_inverted_index DATA) query)
    as [[Hb ->]|[(_ & _ & ->)|(first & rest & Htok & ->)]]; [|done|].
  - intros [= <-]. rewrite (tokenize_blank query Hb), elem_of_seq. split.
    + intros [_ Hlt]. destruct (lookup_lt_is_Some_2 DATA p) as [rec Hrec];
        [simpl in Hlt; lia|].
      exists rec. split; [done|]. by intros t ?%elem_of_nil.
    + intros (rec & Hrec%lookup_lt_Some & _). simpl. lia.
  - intros [= <-]. rewrite (elem_of_search_tokens _ _ _ first rest) by done.
    split.
    + intros Hall.
      assert (first ∈ tokenize query) as Hfirst
        by (rewrite Htok; apply list_elem_of_here).
      apply Hall, elem_of_index in Hfirst as (rec & Hrec & _).
      exists rec. split; [done|]. intros t Ht.
      apply Hall, elem_of_index in Ht as (rec' & Hrec' & Ht). by simplify_eq.
    + intros (rec & Hrec & Hall) t Ht. apply elem_of_index. eauto.
Qed.

Lemma elem_of_looked_up (ps : list nat) recs r :
  Forall2 (fun p r => DATA !! p = Some r) ps recs ->
  r ∈ recs <-> exists p, p ∈ ps /\ DATA !! p = Some r.
Proof.
  induction 1 as [|p r' ps recs Hp _ IH].
  - split; [by intros ?%elem_of_nil|]. by intros (p & ?%elem_of_nil & _).
  - rewrite elem_of_cons, IH. split.
    + intros [->|(q & Hq & Hr)].
      * exists p. split; [apply list_elem_of_here|done].
      * exists q. split; [by apply list_elem_of_further|done].
    + intros (q & [->|Hq]%elem_of_cons & Hr).
      * left. by simplify_eq.
      * right. eauto.
Qed.

Lemma filter_length_bound (f : nat -> bool) (l : list nat) :
  length (List.filter f l) <= length l.
Proof. induction l as [|x l IH]; simpl; [done|]. destruct (f x); simpl; lia. Qed.

Lemma search_length query indices :
  search_keyword O DATA (build_inverted_index DATA) query = Some indices ->
  length indices <= length DATA.
Proof.
  intros Hsearch. pose proof (search_NoDup _ _ _ _ _ Hsearch) as Hnd.
  apply search_keyword_in_range in Hsearch as Hrange.
  assert (length indices <= length (seq 0 (length DATA))) as Hle.
  { apply submseteq_length, NoDup_submseteq; [done|].
    intros p Hp. rewrite Forall_forall in Hrange.
    apply elem_of_seq. specialize (Hrange p Hp). lia. }
  by rewrite length_seq in Hle.
Qed.

Lemma search_filter_spec query F indices recs :
  search_keyword O DATA (build_inverted_index DATA) query = Some indices ->
  filter_results DATA indices F = Some recs ->
  (forall r,
     r ∈ recs
     <-> exists p,
           DATA !! p = Some r /\ passes F r = true /\ has_all_tokens query r)
  /\ length recs <= length DATA.
Proof.
  intros Hsearch (kept & -> & Hkept)%filter_loop_Some. simpl. split.
  - intros r. rewrite (elem_of_looked_up _ _ _ Hkept). split.
    + intros (p & Hp%list_elem_of_In%filter_In & Hr). destruct Hp as [Hp Hk].
      exists p. split; [done|]. unfold kept_at in Hk. rewrite Hr in Hk.
      split; [done|].
      apply list_elem_of_In, (elem_of_search _ _ _ Hsearch) in Hp
        as (rec & Hrec & Hall). by simplify_eq.
    + intros (p & Hr & Hpass & Hall). exists p. split; [|done].
      apply list_elem_of_In, filter_In. split.
      * apply list_elem_of_In, (elem_of_search _ _ _ Hsearch). eauto.
      * unfold kept_at. by rewrite Hr.
  - apply Forall2_length in Hkept. rewrite <- Hkept.
    etrans; [apply filter_length_bound|]. by eapply search_length.
Qed.
End Pipeline.

(** X15. Over the index built from the corpus, resolving a query and
    filtering the candidates returns exactly the records that pass every
    filter and whose search text holds every token of the query (all
    records that pass, for a blank query), and never more records than the
    corpus has. *)
Theorem search_then_filter (O : SetOrder) (DATA : list Rec) (query : string)
    (F : Filters) (indices : list nat) (recs : list Rec) :
  search_keyword O DATA (build_inverted_index DATA) query = Some indices ->
  filter_results DATA indices F = Some recs ->
  (forall r,
     r ∈ recs
     <-> exists p,
           DATA !! p = Some r /\ passes F r = true /\ has_all_tokens query r)
  /\ length recs <= length DATA.
Proof. apply search_filter_spec. Qed.

Lemma search_then_filter_witness :
  (forall r,
     r ∈ [sample_glass]
     <-> exists p,
           sample_data !! p = Some r
           /\ passes (only_persons "MONK") r = true
           /\ has_all_tokens "facade TOWER" r)
  /\ length [sample_glass] <= length sample_data.
Proof.
  apply (search_then_filter descending sample_data "facade TOWER"
           (only_persons "MONK") [8; 1] [sample_glass]); reflexivity.
Defined.

(** X16. Every record on a page of a request passes every filter and
    holds every token of the query, and the total announced is the number
    of such results, at most the size of the corpus. *)
Theorem search_page_sound (int_ : string -> option Z) (O : SetOrder)
    (DATA : list Rec) (query : string) (F : Filters)
    (page_arg : option string) (P : Page) :
  search_page int_ O DATA (build_inverted_index DATA) query F page_arg
  = Some P ->
  (forall r,
     r ∈ results_page P ->
     exists p,
       DATA !! p = Some r /\ passes F r = true /\ has_all_tokens query r)
  /\ (0 <= total_results P <= Z.of_nat (length DATA))%Z
  /\ (1 <= total_pages P)%Z.
Proof.
  unfold search_page.
  destruct (page_number int_ page_arg) as [page|]; [|done].
  destruct (search_keyword O DATA (build_inverted_index DATA) query)
    as [indices|] eqn:Hsearch; [|done].
  destruct (filter_results DATA indices F) as [recs|] eqn:Hfilter; [|done].
  intros [= <-].
  destruct (search_filter_spec O DATA query F indices recs Hsearch Hfilter)
    as [Hin Hlen].
  split; [|split; simpl; lia].
  intros r Hr. apply Hin. simpl in Hr. unfold slice in Hr.
  eapply elem_of_sublist; [exact Hr|].
  etrans; [apply sublist_take | apply sublist_drop].
Qed.

Lemma search_page_sound_witness :
  (forall r,
     r ∈ [sample_glass] ->
     exists p,
       sample_data !! p = Some r
       /\ passes (set_persons (Some "MONK") empty_filters) r = true
       /\ has_all_tokens "facade TOWER" r)
  /\ (0 <= 1 <= Z.of_nat (length sample_data))%Z
  /\ (1 <= 1)%Z.
Proof.
  apply (search_page_sound (fun _ => None) descending sample_data
           "facade TOWER" (set_persons (Some "MONK") empty_filters) None
           {| results_page := [sample_glass]; total_pages := 1;
              total_results := 1 |}).
  reflexivity.
Defined.

(** ** More on the paginator *)

Section MorePaginator.
Implicit Types (results_all : list Rec) (page : Z).

Lemma results_page_from_one results_all (k : nat) :
  1 <= k ->
  results_page (paginate results_all (Z.of_nat k))
  = take 48 (drop (48 * (k - 1)) results_all).
Proof.
  intros Hk. simpl. rewrite slice_page by lia. do 2 f_equal. lia.
Qed.

Lemma pages_upto_take results_all (n : nat) :
  concat (pages_upto results_all n) = take (48 * n) results_all.
Proof.
  unfold pages_upto. induction n as [|n IH]; [done|].
  rewrite seq_S, map_app, concat_app, IH. cbn [map concat].
  rewrite app_nil_r, results_page_from_one by lia.
  replace (48 * (1 + n - 1)) with (48 * n) by lia.
  rewrite take_take_drop. f_equal. lia.
Qed.

Lemma slice_length_bound {A} (l : list A) (start : Z) :
  length (slice l start (start + 48)) <= 48.
Proof.
  unfold slice. rewrite length_take, length_drop.
  destruct (Z.ltb_spec start 0), (Z.ltb_spec (start + 48) 0); lia.
Qed.
End MorePaginator.

(** X17. The pages 1 to [total_pages], put one after the other, give the
    result list back: no result is lost, repeated or moved by paging. *)
Theorem pages_cover_results (results_all : list Rec) (page : Z) :
  concat (pages_upto results_all
            (Z.to_nat (total_pages (paginate results_all page))))
  = results_all.
Proof.
  rewrite pages_upto_take. apply take_ge. simpl.
  pose proof (total_pages_ceil (Z.of_nat (length results_all))) as Hc.
  unfold is_ceil_div, RESULTS_PER_PAGE in *. lia.
Qed.

(** X18. Whatever the page number, a page holds at most 48 records.
    Page 0 is empty.  A negative page does not fault either: counted from
    the end of the results, page -1 is the block of 48 that stops 48
    before the end, and so on, as long as the results reach that far. *)
Theorem paginate_edge_pages (results_all : list Rec) (page : Z) :
  length (results_page (paginate results_all page)) <= 48
  /\ results_page (paginate results_all 0) = []
  /\ ((page < 0)%Z ->
      (48 * (1 - page) <= Z.of_nat (length results_all))%Z ->
      results_page (paginate results_all page)
      = take 48 (drop (length results_all - Z.to_nat (48 * (1 - page)))
                      results_all)).
Proof.
  split; [apply slice_length_bound|]. split.
  - simpl. unfold slice, RESULTS_PER_PAGE. simpl.
    replace (Z.to_nat (_ - _)) with 0 by lia. done.
  - intros Hneg Hfar. simpl. unfold slice, RESULTS_PER_PAGE.
    set (n := Z.of_nat (length results_all)) in *.
    destruct (Z.ltb_spec ((page - 1) * 48) 0); [|lia].
    destruct (Z.ltb_spec ((page - 1) * 48 + 48) 0); [|lia].
    f_equal; [lia|]. f_equal. lia.
Qed.

Lemma paginate_edge_pages_witness :
  results_page (paginate (replicate 90 sample_ruins ++ replicate 10 sample_glass)
                         (-1))
  = replicate 48 sample_ruins.
Proof.
  destruct (paginate_edge_pages
              (replicate 90 sample_ruins ++ replicate 10 sample_glass) (-1))
    as (_ & _ & Hwrap).
  rewrite Hwrap; [reflexivity | lia | vm_compute; discriminate].
Defined.

(** ** Faults of a whole request *)

(** X19. Over the index built from the corpus a request faults exactly
    when [int] rejects its page argument or when its query is not blank
    and has no token; the filters, whatever they are, and a page argument
    that is absent or that [int] reads never make it fault. *)
Theorem request_fault_iff (int_ : string -> option Z) (O : SetOrder)
    (DATA : list Rec) (query : string) (F : Filters)
    (page_arg : option string) :
  search_page int_ O DATA (build_inverted_index DATA) query F page_arg = None
  <-> (exists s, page_arg = Some s /\ int_ s = None)
      \/ (~ blank query /\ tokenize query = []).
Proof.
  rewrite search_page_fault. unfold page_number.
  destruct page_arg as [s|]; naive_solver.
Qed.
